(** * fuzzy-match-utils: a shallow embedding of dist/fuzzy-match-utils.js

    The four exported functions ([filterOptions], [typeaheadSimilarity],
    [fullStringDistance], [cleanUpText]) are translated to Gallina together
    with the JavaScript built-ins they call.

    - A JavaScript string is a list of UTF-16 code units ([Z]).
    - A JavaScript array is a list of optional cells; a missing cell is a hole.
    - A run that would throw, or that would read [undefined] where a number
      is needed, is [None] in the [option] monad.
    - Numbers that the library produces are naturals (lengths, table cells),
      integers (the threshold) or exact rationals (the scores).  The
      engine computes [bLength + 1 / aLength] in binary64; the statements
      about that score are the ones that rounding to nearest preserves,
      and [Binary64] evaluates the expression in the engine's arithmetic
      where the two differ.
    - [toUpperCase] follows the case mappings of Unicode 14.0. *)

From Stdlib Require Import ZArith QArith Lqa Lia.
From Stdlib Require Import Floats.SpecFloat.
From stdpp Require Import list option sorting strings.

Open Scope Z_scope.

(** ** JavaScript values and built-ins *)

Module JS.

(** Strings are sequences of UTF-16 code units. *)
Abbreviation str := (list Z).

(** [s[i]]: the code unit at index [i], [undefined] out of range. *)
Definition charAt (s : str) (i : nat) : option Z := s !! i.

(** [x === y] on two results of string indexing. *)
Definition strictEq (x y : option Z) : bool := bool_decide (x = y).

(** Arrays.  [None] in a cell is a hole; reading it gives [undefined]. *)
Abbreviation Array A := (list (option A)).

Definition get {A} (arr : Array A) (i : nat) : option A :=
  mjoin (arr !! i).

(** [arr[i] = v]: overwrites inside the array, extends it otherwise
    (leaving holes when [i] is beyond the end). *)
Definition set {A} (arr : Array A) (i : nat) (v : A) : Array A :=
  if decide (i < length arr)%nat then <[i := Some v]> arr
  else arr ++ replicate (i - length arr) None ++ [Some v].

(** [table[x][y]] and [table[x][y] = v]; both fail when [table[x]] is
    [undefined]. *)
Definition get2 {A} (table : Array (Array A)) (x y : nat) : option A :=
  row ← get table x; get row y.

Definition set2 {A} (table : Array (Array A)) (x y : nat) (v : A)
  : option (Array (Array A)) :=
  row ← get table x; Some (set table x (set row y v)).

(** [for (var i = lo; i <= hi; ++i) body]: [n] is the number of
    iterations left. *)
Fixpoint for_loop {S} (n : nat) (i : nat) (body : nat → S → option S)
    (s : S) : option S :=
  match n with
  | O => Some s
  | Datatypes.S n' => s' ← body i s; for_loop n' (Datatypes.S i) body s'
  end.

Definition for_to {S} (lo hi : nat) (body : nat → S → option S) (s : S)
  : option S :=
  for_loop (Datatypes.S hi - lo) lo body s.

(** [Math.min(x, y, z)] on naturals. *)
Definition Math_min3 (x y z : nat) : nat := ((x `min` y) `min` z)%nat.

(** [a.indexOf(b)]: the least index at which [b] occurs in [a], or -1. *)
Fixpoint startsWith (a b : str) : bool :=
  match b, a with
  | [], _ => true
  | _ :: _, [] => false
  | v :: b', u :: a' => (u =? v) && startsWith a' b'
  end.

Fixpoint indexOf_from (a b : str) (k : Z) : Z :=
  if startsWith a b then k
  else match a with
       | [] => -1
       | _ :: a' => indexOf_from a' b (k + 1)
       end.

Definition indexOf (a b : str) : Z := indexOf_from a b 0.

(** *** [String.prototype.toUpperCase]

    The string is read as code points (a high surrogate followed by a low
    surrogate is one code point, any other code unit stands for itself),
    every code point is replaced by its full uppercase mapping, and the
    result is written back as UTF-16. *)

Definition isHighSurrogate (u : Z) : bool := (0xD800 <=? u) && (u <=? 0xDBFF).
Definition isLowSurrogate (u : Z) : bool := (0xDC00 <=? u) && (u <=? 0xDFFF).

Fixpoint StringToCodePoints (s : str) : list Z :=
  match s with
  | [] => []
  | u :: s' =>
      match s' with
      | v :: s'' =>
          if isHighSurrogate u && isLowSurrogate v
          then (0x10000 + (u - 0xD800) * 0x400 + (v - 0xDC00))
                 :: StringToCodePoints s''
          else u :: StringToCodePoints s'
      | [] => [u]
      end
  end.

Definition CodePointToUnits (cp : Z) : str :=
  if cp <=? 0xFFFF then [cp]
  else [0xD800 + (cp - 0x10000) / 0x400; 0xDC00 + (cp - 0x10000) mod 0x400].

Definition CodePointsToString (cps : list Z) : str :=
  concat (map CodePointToUnits cps).

(** The simple uppercase mappings of UnicodeData.txt (Unicode 14.0), as
    runs [(first, last, step, delta)]: every code point [first + k * step]
    up to [last] maps to itself plus [delta]. *)
Definition UppercaseRuns : list (Z * Z * Z * Z) :=
  [
   (0x61, 0x7A, 1, -32); (0xB5, 0xB5, 1, 743); (0xE0, 0xF6, 1, -32);
   (0xF8, 0xFE, 1, -32); (0xFF, 0xFF, 1, 121); (0x101, 0x12F, 2, -1);
   (0x131, 0x131, 1, -232); (0x133, 0x137, 2, -1); (0x13A, 0x148, 2, -1);
   (0x14B, 0x177, 2, -1); (0x17A, 0x17E, 2, -1); (0x17F, 0x17F, 1, -300);
   (0x180, 0x180, 1, 195); (0x183, 0x185, 2, -1); (0x188, 0x188, 1, -1);
   (0x18C, 0x18C, 1, -1); (0x192, 0x192, 1, -1); (0x195, 0x195, 1, 97);
   (0x199, 0x199, 1, -1); (0x19A, 0x19A, 1, 163); (0x19E, 0x19E, 1, 130);
   (0x1A1, 0x1A5, 2, -1); (0x1A8, 0x1A8, 1, -1); (0x1AD, 0x1AD, 1, -1);
   (0x1B0, 0x1B0, 1, -1); (0x1B4, 0x1B6, 2, -1); (0x1B9, 0x1B9, 1, -1);
   (0x1BD, 0x1BD, 1, -1); (0x1BF, 0x1BF, 1, 56); (0x1C5, 0x1C5, 1, -1);
   (0x1C6, 0x1C6, 1, -2); (0x1C8, 0x1C8, 1, -1); (0x1C9, 0x1C9, 1, -2);
   (0x1CB, 0x1CB, 1, -1); (0x1CC, 0x1CC, 1, -2); (0x1CE, 0x1DC, 2, -1);
   (0x1DD, 0x1DD, 1, -79); (0x1DF, 0x1EF, 2, -1); (0x1F2, 0x1F2, 1, -1);
   (0x1F3, 0x1F3, 1, -2); (0x1F5, 0x1F5, 1, -1); (0x1F9, 0x21F, 2, -1);
   (0x223, 0x233, 2, -1); (0x23C, 0x23C, 1, -1); (0x23F, 0x240, 1, 10815);
   (0x242, 0x242, 1, -1); (0x247, 0x24F, 2, -1); (0x250, 0x250, 1, 10783);
   (0x251, 0x251, 1, 10780); (0x252, 0x252, 1, 10782);
   (0x253, 0x253, 1, -210); (0x254, 0x254, 1, -206);
   (0x256, 0x257, 1, -205); (0x259, 0x259, 1, -202);
   (0x25B, 0x25B, 1, -203); (0x25C, 0x25C, 1, 42319);
   (0x260, 0x260, 1, -205); (0x261, 0x261, 1, 42315);
   (0x263, 0x263, 1, -207); (0x265, 0x265, 1, 42280);
   (0x266, 0x266, 1, 42308); (0x268, 0x268, 1, -209);
   (0x269, 0x269, 1, -211); (0x26A, 0x26A, 1, 42308);
   (0x26B, 0x26B, 1, 10743); (0x26C, 0x26C, 1, 42305);
   (0x26F, 0x26F, 1, -211); (0x271, 0x271, 1, 10749);
   (0x272, 0x272, 1, -213); (0x275, 0x275, 1, -214);
   (0x27D, 0x27D, 1, 10727); (0x280, 0x280, 1, -218);
   (0x282, 0x282, 1, 42307); (0x283, 0x283, 1, -218);
   (0x287, 0x287, 1, 42282); (0x288, 0x288, 1, -218);
   (0x289, 0x289, 1, -69); (0x28A, 0x28B, 1, -217); (0x28C, 0x28C, 1, -71);
   (0x292, 0x292, 1, -219); (0x29D, 0x29D, 1, 42261);
   (0x29E, 0x29E, 1, 42258); (0x345, 0x345, 1, 84); (0x371, 0x373, 2, -1);
   (0x377, 0x377, 1, -1); (0x37B, 0x37D, 1, 130); (0x3AC, 0x3AC, 1, -38);
   (0x3AD, 0x3AF, 1, -37); (0x3B1, 0x3C1, 1, -32); (0x3C2, 0x3C2, 1, -31);
   (0x3C3, 0x3CB, 1, -32); (0x3CC, 0x3CC, 1, -64); (0x3CD, 0x3CE, 1, -63);
   (0x3D0, 0x3D0, 1, -62); (0x3D1, 0x3D1, 1, -57); (0x3D5, 0x3D5, 1, -47);
   (0x3D6, 0x3D6, 1, -54); (0x3D7, 0x3D7, 1, -8); (0x3D9, 0x3EF, 2, -1);
   (0x3F0, 0x3F0, 1, -86); (0x3F1, 0x3F1, 1, -80); (0x3F2, 0x3F2, 1, 7);
   (0x3F3, 0x3F3, 1, -116); (0x3F5, 0x3F5, 1, -96); (0x3F8, 0x3F8, 1, -1);
   (0x3FB, 0x3FB, 1, -1); (0x430, 0x44F, 1, -32); (0x450, 0x45F, 1, -80);
   (0x461, 0x481, 2, -1); (0x48B, 0x4BF, 2, -1); (0x4C2, 0x4CE, 2, -1);
   (0x4CF, 0x4CF, 1, -15); (0x4D1, 0x52F, 2, -1); (0x561, 0x586, 1, -48);
   (0x10D0, 0x10FA, 1, 3008); (0x10FD, 0x10FF, 1, 3008);
   (0x13F8, 0x13FD, 1, -8); (0x1C80, 0x1C80, 1, -6254);
   (0x1C81, 0x1C81, 1, -6253); (0x1C82, 0x1C82, 1, -6244);
   (0x1C83, 0x1C84, 1, -6242); (0x1C85, 0x1C85, 1, -6243);
   (0x1C86, 0x1C86, 1, -6236); (0x1C87, 0x1C87, 1, -6181);
   (0x1C88, 0x1C88, 1, 35266); (0x1D79, 0x1D79, 1, 35332);
   (0x1D7D, 0x1D7D, 1, 3814); (0x1D8E, 0x1D8E, 1, 35384);
   (0x1E01, 0x1E95, 2, -1); (0x1E9B, 0x1E9B, 1, -59);
   (0x1EA1, 0x1EFF, 2, -1); (0x1F00, 0x1F07, 1, 8); (0x1F10, 0x1F15, 1, 8);
   (0x1F20, 0x1F27, 1, 8); (0x1F30, 0x1F37, 1, 8); (0x1F40, 0x1F45, 1, 8);
   (0x1F51, 0x1F57, 2, 8); (0x1F60, 0x1F67, 1, 8); (0x1F70, 0x1F71, 1, 74);
   (0x1F72, 0x1F75, 1, 86); (0x1F76, 0x1F77, 1, 100);
   (0x1F78, 0x1F79, 1, 128); (0x1F7A, 0x1F7B, 1, 112);
   (0x1F7C, 0x1F7D, 1, 126); (0x1FB0, 0x1FB1, 1, 8);
   (0x1FBE, 0x1FBE, 1, -7205); (0x1FD0, 0x1FD1, 1, 8);
   (0x1FE0, 0x1FE1, 1, 8); (0x1FE5, 0x1FE5, 1, 7);
   (0x214E, 0x214E, 1, -28); (0x2170, 0x217F, 1, -16);
   (0x2184, 0x2184, 1, -1); (0x24D0, 0x24E9, 1, -26);
   (0x2C30, 0x2C5F, 1, -48); (0x2C61, 0x2C61, 1, -1);
   (0x2C65, 0x2C65, 1, -10795); (0x2C66, 0x2C66, 1, -10792);
   (0x2C68, 0x2C6C, 2, -1); (0x2C73, 0x2C73, 1, -1);
   (0x2C76, 0x2C76, 1, -1); (0x2C81, 0x2CE3, 2, -1);
   (0x2CEC, 0x2CEE, 2, -1); (0x2CF3, 0x2CF3, 1, -1);
   (0x2D00, 0x2D25, 1, -7264); (0x2D27, 0x2D27, 1, -7264);
   (0x2D2D, 0x2D2D, 1, -7264); (0xA641, 0xA66D, 2, -1);
   (0xA681, 0xA69B, 2, -1); (0xA723, 0xA72F, 2, -1);
   (0xA733, 0xA76F, 2, -1); (0xA77A, 0xA77C, 2, -1);
   (0xA77F, 0xA787, 2, -1); (0xA78C, 0xA78C, 1, -1);
   (0xA791, 0xA793, 2, -1); (0xA794, 0xA794, 1, 48);
   (0xA797, 0xA7A9, 2, -1); (0xA7B5, 0xA7C3, 2, -1);
   (0xA7C8, 0xA7CA, 2, -1); (0xA7D1, 0xA7D1, 1, -1);
   (0xA7D7, 0xA7D9, 2, -1); (0xA7F6, 0xA7F6, 1, -1);
   (0xAB53, 0xAB53, 1, -928); (0xAB70, 0xABBF, 1, -38864);
   (0xFF41, 0xFF5A, 1, -32); (0x10428, 0x1044F, 1, -40);
   (0x104D8, 0x104FB, 1, -40); (0x10597, 0x105BB, 2, -39);
   (0x10598, 0x105A1, 1, -39); (0x105A3, 0x105B1, 1, -39);
   (0x105B3, 0x105B9, 1, -39); (0x105BB, 0x105BC, 1, -39);
   (0x10CC0, 0x10CF2, 1, -64); (0x118C0, 0x118DF, 1, -32);
   (0x16E60, 0x16E7F, 1, -32); (0x1E922, 0x1E943, 1, -34)
  ].

(** The unconditional multi-character uppercase mappings of
    SpecialCasing.txt (Unicode 14.0). *)
Definition SpecialUppercase : list (Z * list Z) :=
  [
   (0xDF, [0x53; 0x53]); (0x149, [0x2BC; 0x4E]); (0x1F0, [0x4A; 0x30C]);
   (0x390, [0x399; 0x308; 0x301]); (0x3B0, [0x3A5; 0x308; 0x301]);
   (0x587, [0x535; 0x552]); (0x1E96, [0x48; 0x331]);
   (0x1E97, [0x54; 0x308]); (0x1E98, [0x57; 0x30A]);
   (0x1E99, [0x59; 0x30A]); (0x1E9A, [0x41; 0x2BE]);
   (0x1F50, [0x3A5; 0x313]); (0x1F52, [0x3A5; 0x313; 0x300]);
   (0x1F54, [0x3A5; 0x313; 0x301]); (0x1F56, [0x3A5; 0x313; 0x342]);
   (0x1F80, [0x1F08; 0x399]); (0x1F81, [0x1F09; 0x399]);
   (0x1F82, [0x1F0A; 0x399]); (0x1F83, [0x1F0B; 0x399]);
   (0x1F84, [0x1F0C; 0x399]); (0x1F85, [0x1F0D; 0x399]);
   (0x1F86, [0x1F0E; 0x399]); (0x1F87, [0x1F0F; 0x399]);
   (0x1F88, [0x1F08; 0x399]); (0x1F89, [0x1F09; 0x399]);
   (0x1F8A, [0x1F0A; 0x399]); (0x1F8B, [0x1F0B; 0x399]);
   (0x1F8C, [0x1F0C; 0x399]); (0x1F8D, [0x1F0D; 0x399]);
   (0x1F8E, [0x1F0E; 0x399]); (0x1F8F, [0x1F0F; 0x399]);
   (0x1F90, [0x1F28; 0x399]); (0x1F91, [0x1F29; 0x399]);
   (0x1F92, [0x1F2A; 0x399]); (0x1F93, [0x1F2B; 0x399]);
   (0x1F94, [0x1F2C; 0x399]); (0x1F95, [0x1F2D; 0x399]);
   (0x1F96, [0x1F2E; 0x399]); (0x1F97, [0x1F2F; 0x399]);
   (0x1F98, [0x1F28; 0x399]); (0x1F99, [0x1F29; 0x399]);
   (0x1F9A, [0x1F2A; 0x399]); (0x1F9B, [0x1F2B; 0x399]);
   (0x1F9C, [0x1F2C; 0x399]); (0x1F9D, [0x1F2D; 0x399]);
   (0x1F9E, [0x1F2E; 0x399]); (0x1F9F, [0x1F2F; 0x399]);
   (0x1FA0, [0x1F68; 0x399]); (0x1FA1, [0x1F69; 0x399]);
   (0x1FA2, [0x1F6A; 0x399]); (0x1FA3, [0x1F6B; 0x399]);
   (0x1FA4, [0x1F6C; 0x399]); (0x1FA5, [0x1F6D; 0x399]);
   (0x1FA6, [0x1F6E; 0x399]); (0x1FA7, [0x1F6F; 0x399]);
   (0x1FA8, [0x1F68; 0x399]); (0x1FA9, [0x1F69; 0x399]);
   (0x1FAA, [0x1F6A; 0x399]); (0x1FAB, [0x1F6B; 0x399]);
   (0x1FAC, [0x1F6C; 0x399]); (0x1FAD, [0x1F6D; 0x399]);
   (0x1FAE, [0x1F6E; 0x399]); (0x1FAF, [0x1F6F; 0x399]);
   (0x1FB2, [0x1FBA; 0x399]); (0x1FB3, [0x391; 0x399]);
   (0x1FB4, [0x386; 0x399]); (0x1FB6, [0x391; 0x342]);
   (0x1FB7, [0x391; 0x342; 0x399]); (0x1FBC, [0x391; 0x399]);
   (0x1FC2, [0x1FCA; 0x399]); (0x1FC3, [0x397; 0x399]);
   (0x1FC4, [0x389; 0x399]); (0x1FC6, [0x397; 0x342]);
   (0x1FC7, [0x397; 0x342; 0x399]); (0x1FCC, [0x397; 0x399]);
   (0x1FD2, [0x399; 0x308; 0x300]); (0x1FD3, [0x399; 0x308; 0x301]);
   (0x1FD6, [0x399; 0x342]); (0x1FD7, [0x399; 0x308; 0x342]);
   (0x1FE2, [0x3A5; 0x308; 0x300]); (0x1FE3, [0x3A5; 0x308; 0x301]);
   (0x1FE4, [0x3A1; 0x313]); (0x1FE6, [0x3A5; 0x342]);
   (0x1FE7, [0x3A5; 0x308; 0x342]); (0x1FF2, [0x1FFA; 0x399]);
   (0x1FF3, [0x3A9; 0x399]); (0x1FF4, [0x38F; 0x399]);
   (0x1FF6, [0x3A9; 0x342]); (0x1FF7, [0x3A9; 0x342; 0x399]);
   (0x1FFC, [0x3A9; 0x399]); (0xFB00, [0x46; 0x46]);
   (0xFB01, [0x46; 0x49]); (0xFB02, [0x46; 0x4C]);
   (0xFB03, [0x46; 0x46; 0x49]); (0xFB04, [0x46; 0x46; 0x4C]);
   (0xFB05, [0x53; 0x54]); (0xFB06, [0x53; 0x54]);
   (0xFB13, [0x544; 0x546]); (0xFB14, [0x544; 0x535]);
   (0xFB15, [0x544; 0x53B]); (0xFB16, [0x54E; 0x546]);
   (0xFB17, [0x544; 0x53D])
  ].

Definition inRun (cp : Z) (r : Z * Z * Z * Z) : bool :=
  let '(first, last, step, _) := r in
  (first <=? cp) && (cp <=? last) && ((cp - first) mod step =? 0).

Definition simpleUppercase (cp : Z) : Z :=
  match List.find (inRun cp) UppercaseRuns with
  | Some (_, _, _, delta) => cp + delta
  | None => cp
  end.

Definition toUppercase (cp : Z) : list Z :=
  match List.find (λ e, fst e =? cp) SpecialUppercase with
  | Some (_, cps) => cps
  | None => [simpleUppercase cp]
  end.

Definition toUpperCase (s : str) : str :=
  CodePointsToString (concat (map toUppercase (StringToCodePoints s))).

(** *** The regular expression [/((?=[^\u00E0-\u00FC])\W)|_/g]

    Without the [u] and [i] flags the pattern is matched code unit by code
    unit; [\W] is the complement of [[A-Za-z0-9_]].  Every match is one
    code unit long, so replacing all matches by the empty string removes
    exactly the matching code units. *)

Definition isWordChar (u : Z) : bool :=
  ((0x41 <=? u) && (u <=? 0x5A)) || ((0x61 <=? u) && (u <=? 0x7A))
  || ((0x30 <=? u) && (u <=? 0x39)) || (u =? 0x5F).

Definition inAccentRange (u : Z) : bool := (0xE0 <=? u) && (u <=? 0xFC).

Definition stripMatches (u : Z) : bool :=
  (negb (inAccentRange u) && negb (isWordChar u)) || (u =? 0x5F).

Definition stripReplace (s : str) : str :=
  List.filter (λ u, negb (stripMatches u)) s.

(** *** Numbers, [Array.prototype.reduce], [Array.prototype.sort] *)

Definition Number (n : nat) : Q := inject_Z (Z.of_nat n).

Fixpoint reduce {A B} (f : B → A → option B) (l : list A) (init : B)
  : option B :=
  match l with
  | [] => Some init
  | x :: l' => acc ← f init x; reduce f l' acc
  end.

(** [arr.sort(comparefn)].  The engine's sort is stable: elements that the
    comparator does not separate keep their input order.  The model places
    the elements one by one, from the last to the first, each before the
    first element already placed that it does not have to follow, that is
    the first [y] with [comparefn(x, y) <= 0]. *)
Fixpoint insertSorted {A} (comparefn : A → A → Q) (x : A) (arr : list A)
  : list A :=
  match arr with
  | [] => [x]
  | y :: arr' =>
      if Qle_bool (comparefn x y) 0 then x :: y :: arr'
      else y :: insertSorted comparefn x arr'
  end.

Definition sort {A} (comparefn : A → A → Q) (arr : list A) : list A :=
  foldr (insertSorted comparefn) [] arr.

End JS.

Import JS.

(** ** The library *)

(** [fullStringDistance(a, b)], lines 145-184. *)
Definition fullStringDistance (a b : str) : option nat :=
  let aLength := length a in
  let bLength := length b in
  let table : Array (Array nat) := [] in
  if bool_decide (aLength = 0%nat) then Some bLength
  else if bool_decide (bLength = 0%nat) then Some aLength
  else
    table ← for_to 0 aLength (λ x table, Some (set table x [Some x])) table;
    table ← for_to 0 bLength (λ y table, set2 table 0 y y) table;
    table ← for_to 1 aLength (λ x table,
      for_to 1 bLength (λ y table,
        v ← (if strictEq (charAt a (x - 1)) (charAt b (y - 1))
             then get2 table (x - 1) (y - 1)
             else
               sub ← get2 table (x - 1) y;
               ins ← get2 table x (y - 1);
               del ← get2 table (x - 1) (y - 1);
               Some (1 + Math_min3 sub ins del)%nat);
        set2 table x y v) table) table;
    get2 table aLength bLength.

(** [typeaheadSimilarity(a, b)], lines 82-130.  The swap exchanges the two
    strings only: [aLength] and [bLength] were read before it and keep
    their values.  The early exit is computed here without rounding. *)
Definition typeaheadSimilarity (a b : str) : option Q :=
  let aLength := length a in
  let bLength := length b in
  let table : Array (Array nat) := [] in
  if bool_decide (aLength = 0%nat) || bool_decide (bLength = 0%nat)
  then Some 0%Q
  else
    let '(a, b) := if bool_decide (aLength < bLength)%nat then (b, a) else (a, b) in
    if negb (indexOf a b =? -1)
    then Some (Number bLength + 1 / Number aLength)%Q
    else
      table ← for_to 0 aLength (λ x table, Some (set table x [Some 0%nat])) table;
      table ← for_to 0 bLength (λ y table, set2 table 0 y 0%nat) table;
      table ← for_to 1 aLength (λ x table,
        for_to 1 bLength (λ y table,
          v ← (if strictEq (charAt a (x - 1)) (charAt b (y - 1))
               then d ← get2 table (x - 1) (y - 1); Some (1 + d)%nat
               else
                 l ← get2 table x (y - 1);
                 u ← get2 table (x - 1) y;
                 Some (l `max` u)%nat);
          set2 table x y v) table) table;
      n ← get2 table aLength bLength;
      Some (Number n).

Section Library.

(** [new RegExp(source, 'g')] ([None] when the source is not a pattern)
    and [subject.replace(regexp, replacement)] belong to the engine and
    are parameters of the model; so is the type of option values. *)
Context {RegExp V : Type}.
Variable RegExp_new : str → option RegExp.
Variable String_replace : str → RegExp → str → str.

(** The substitution table, as [Object.keys] enumerates it: each key with
    the value stored under it. *)
Definition Substitutions := list (str * str).

(** [cleanUpText(input, substitutions)], lines 199-219.  An absent
    argument is [None]. *)
Definition cleanUpText (input : option str)
    (substitutions : option Substitutions) : option str :=
  match input with
  | None | Some [] => Some []
  | Some input =>
      let input := stripReplace (toUpperCase input) in
      match substitutions with
      | None => Some input
      | Some safeSubstitutions =>
          reduce (λ output '(substitution, replacement),
                    unsubbed ← RegExp_new substitution;
                    Some (String_replace output unsubbed replacement))
                 safeSubstitutions input
      end
  end.

(** An option record; a [null] or missing field is [None]. *)
Record Option := { label : option str; value : option V }.

(** The [{option, score}] pairs built inside [filterOptions]. *)
Record Pair := { option_ : Option; score : Q }.

(** The score [filterOptions] gives to an option. *)
Definition scoreOf (cleanFilter : str) (substitutions : option Substitutions)
    (opt : Option) : option Q :=
  cleanLabel ← cleanUpText (label opt) substitutions;
  typeaheadSimilarity cleanLabel cleanFilter.

(** [filterOptions(options, filter, substitutions)], lines 31-66. *)
Definition filterOptions (options : list Option) (filter : option str)
    (substitutions : option Substitutions) : option (list Option) :=
  match filter with
  | None | Some [] => Some options
  | Some _ =>
      cleanFilter ← cleanUpText filter substitutions;
      let present :=
        List.filter (λ o, bool_decide (label o ≠ None)
                           && bool_decide (value o ≠ None)) options in
      pairs ← mapM (λ opt,
                      score ← scoreOf cleanFilter substitutions opt;
                      Some {| option_ := opt; score := score |})
                   present;
      let matches :=
        List.filter (λ pair, Qle_bool (inject_Z (Z.of_nat (length cleanFilter) - 2))
                                      (score pair)) pairs in
      let sorted := sort (λ a b, score b - score a)%Q matches in
      Some (option_ <$> sorted)
  end.

End Library.

(** A string literal of ASCII characters, as code units. *)
Definition lit (s : string) : str :=
  map (λ c, Z.of_nat (Ascii.nat_of_ascii c)) (String.list_ascii_of_string s).

(** ** Notions of the specification *)

Module Spec.

(** One single-character insertion, deletion or substitution, anywhere in
    the string. *)
Inductive edit : str → str → Prop :=
| edit_insert p c q : edit (p ++ q) (p ++ c :: q)
| edit_delete p c q : edit (p ++ c :: q) (p ++ q)
| edit_substitute p c d q : edit (p ++ c :: q) (p ++ d :: q).

(** [edits n a b]: [n] single-character edits transform [a] into [b]. *)
Inductive edits : nat → str → str → Prop :=
| edits_O s : edits 0 s s
| edits_S n s t u : edit s t → edits n t u → edits (S n) s u.

(** [n] is the Levenshtein distance of [a] and [b]: the minimum number of
    edits, each of cost 1, that transform [a] into [b]. *)
Definition Levenshtein (a b : str) (n : nat) : Prop :=
  edits n a b ∧ ∀ m, edits m a b → (n ≤ m)%nat.

(** [a] contains [b] as a contiguous substring. *)
Definition contains (a b : str) : Prop := ∃ p q, a = p ++ b ++ q.

End Spec.

(** ** The values the two tables hold *)

(** The cell the edit-distance table gets for two strings read from their
    last characters backwards. *)
Fixpoint lev (a b : str) : nat :=
  match a with
  | [] => length b
  | x :: a' =>
      (fix lev_a (b : str) : nat :=
         match b with
         | [] => length a
         | y :: b' =>
             if bool_decide (x = y) then lev a' b'
             else S (Math_min3 (lev a' b) (lev_a b') (lev a' b'))
         end) b
  end.

(** The cell [(x, y)] of the table of [typeaheadSimilarity], as a function
    of the two strings the loops index. *)
Fixpoint lcsCell (a b : str) (x : nat) : nat → nat :=
  match x with
  | O => λ _, O
  | S x' =>
      fix lcs_x (y : nat) : nat :=
        match y with
        | O => O
        | S y' =>
            if strictEq (charAt a x') (charAt b y') then S (lcsCell a b x' y')
            else (lcs_x y' `max` lcsCell a b x' y)%nat
        end
  end.

(** ** Character classes used in the proofs *)

(** The code units [cleanUpText] can return without a substitution table:
    an ASCII digit, an ASCII capital letter, or the division sign. *)
Definition cleanChar (u : Z) : Prop :=
  0x30 ≤ u ≤ 0x39 ∨ 0x41 ≤ u ≤ 0x5A ∨ u = 0xF7.

Definition isCleanChar (u : Z) : bool :=
  ((0x30 <=? u) && (u <=? 0x39)) || ((0x41 <=? u) && (u <=? 0x5A)) || (u =? 0xF7).

(** The code units the strip pattern keeps and that are not clean: the
    ASCII small letters and the range U+00E0-U+00FC without U+00F7. *)
Definition lowerOrAccent (u : Z) : bool :=
  ((0x61 <=? u) && (u <=? 0x7A)) || (inAccentRange u && negb (u =? 0xF7)).

(** A run never maps into the small letters or the accent range. *)
Definition runAvoids (r : Z * Z * Z * Z) : bool :=
  let '(first, last, _, delta) := r in
  (last + delta <? 0x61) || (0xFC <? first + delta)
  || ((0x7A <? first + delta) && (last + delta <? 0xE0)).

Ltac split_comparisons :=
  repeat match goal with
    | |- context [?a <=? ?b] => destruct (Z.leb_spec a b)
    | |- context [?a <? ?b] => destruct (Z.ltb_spec a b)
    | |- context [?a =? ?b] => destruct (Z.eqb_spec a b)
    | H : context [?a <=? ?b] |- _ => destruct (Z.leb_spec a b)
    | H : context [?a <? ?b] |- _ => destruct (Z.ltb_spec a b)
    | H : context [?a =? ?b] |- _ => destruct (Z.eqb_spec a b)
    end.

(** ** Concrete inputs *)

Module Examples.

(** "Scoil Bhríde Primary School"; the accented letter is U+00ED. *)
Definition school : str :=
  lit "Scoil Bhr" ++ [0xED] ++ lit "de Primary School".

(** An engine in which no source is a pattern; enough for calls that pass
    no substitution table. *)
Definition noRegExp (source : str) : option Empty_set := None.

Definition noReplace (subject : str) (regexp : Empty_set) (replacement : str)
  : str := match regexp with end.

Definition foo : @Option nat := {| label := Some (lit "Foo"); value := Some 1%nat |}.
Definition food : @Option nat := {| label := Some (lit "Food"); value := Some 3%nat |}.
Definition nullLabel : @Option nat := {| label := None; value := Some 2%nat |}.

End Examples.

(** ** Notions used by the further properties *)

(** [n] is the length of a longest common subsequence of [a] and [b]. *)
Definition LCSLength {A} (a b : list A) (n : nat) : Prop :=
  (∃ c, c `sublist_of` a ∧ c `sublist_of` b ∧ length c = n)
  ∧ ∀ c, c `sublist_of` a → c `sublist_of` b → (length c ≤ n)%nat.

(** The recurrence of [typeaheadSimilarity]'s table on two lists read from
    their heads. *)
Fixpoint lcs `{EqDecision A} (a b : list A) : nat :=
  match a with
  | [] => O
  | x :: a' =>
      (fix lcs_a (b : list A) : nat :=
         match b with
         | [] => O
         | y :: b' =>
             if bool_decide (x = y) then S (lcs a' b')
             else (lcs_a b' `max` lcs a' b)%nat
         end) b
  end.

(** The ASCII letters and digits, and the ASCII letters made capital. *)
Definition isAsciiAlnum (u : Z) : bool :=
  ((0x30 <=? u) && (u <=? 0x39)) || ((0x41 <=? u) && (u <=? 0x5A))
  || ((0x61 <=? u) && (u <=? 0x7A)).

Definition asciiToUpper (u : Z) : Z :=
  if (0x61 <=? u) && (u <=? 0x7A) then u - 0x20 else u.

Section Passing.

Context {RegExp V : Type}.
Variable RegExp_new : str → option RegExp.
Variable String_replace : str → RegExp → str → str.

(** The two tests of [filterOptions] on one option: label and value are
    not null, and the score reaches [length(cleanFilter) - 2]. *)
Definition passes (cleanFilter : str) (substitutions : option Substitutions)
    (o : @Option V) : bool :=
  bool_decide (label o ≠ None) && bool_decide (value o ≠ None)
  && match scoreOf RegExp_new String_replace cleanFilter substitutions o with
     | Some s => Qle_bool (inject_Z (Z.of_nat (length cleanFilter) - 2)) s
     | None => false
     end.

End Passing.

Module MoreExamples.

Definition wallenberg : @Option nat :=
  {| label := Some (lit "Raoul Wallenberg Traditional High School");
     value := Some 7%nat |}.

Definition cafe : @Option nat :=
  {| label := Some (lit "Cafe"); value := Some 8%nat |}.

End MoreExamples.

(** ** The early exit in binary64 *)

Module Binary64.

(** A length as a JavaScript number: an integer below 2^53 is an exact
    binary64 value. *)
Definition ofLength (n : Z) : spec_float := binary_normalize 53 1024 n 0 false.

(** [bLength + 1 / aLength] of line 102 as the engine evaluates it: the
    quotient and then the sum are rounded to nearest, ties to even. *)
Definition earlyExit (aLength bLength : Z) : spec_float :=
  SFadd 53 1024 (ofLength bLength)
    (SFdiv 53 1024 (ofLength 1) (ofLength aLength)).

End Binary64.

(** ** Arrays and loops *)

Section Arrays.
Context {A : Type}.
Implicit Types (arr : Array A).

Lemma get_set_eq arr i v : get (set arr i v) i = Some v.
Proof.
  unfold get, set. case_decide.
  - by rewrite list_lookup_insert_eq.
  - rewrite lookup_app_r by lia.
    rewrite lookup_app_r; rewrite length_replicate; [|lia].
    by replace (i - length arr - (i - length arr))%nat with 0%nat by lia.
Qed.

Lemma get_set_ne arr i j v : i ≠ j → get (set arr i v) j = get arr j.
Proof.
  intros Hij. unfold get, set. case_decide.
  - by rewrite list_lookup_insert_ne.
  - destruct (decide (j < length arr)%nat) as [Hj|Hj].
    + by rewrite lookup_app_l.
    + rewrite (lookup_ge_None_2 arr j) by lia.
      rewrite lookup_app_r by lia.
      destruct (decide (j - length arr < i - length arr)%nat).
      * rewrite lookup_app_l by (rewrite length_replicate; lia).
        by rewrite lookup_replicate_2.
      * rewrite lookup_app_r; rewrite length_replicate; [|lia].
        rewrite lookup_ge_None_2; [done|simpl; lia].
Qed.
End Arrays.

Section Tables.
Context {A : Type}.
Implicit Types (table : Array (Array A)).

Lemma set2_is_Some table x y v i :
  is_Some (get2 table x i) → is_Some (set2 table x y v).
Proof.
  unfold get2, set2. destruct (get table x); simpl; [eauto|].
  by intros [? ?].
Qed.

Lemma get2_set2 table table' x y v i j :
  set2 table x y v = Some table' →
  get2 table' i j = if bool_decide (i = x ∧ j = y) then Some v
                    else get2 table i j.
Proof.
  unfold set2, get2. destruct (get table x) as [row|] eqn:Hrow; [|done].
  simpl. intros [= <-].
  destruct (decide (i = x)) as [->|Hi].
  - rewrite get_set_eq. simpl. rewrite Hrow. simpl.
    destruct (decide (j = y)) as [->|Hj]; case_bool_decide as Hc;
      try tauto.
    + apply get_set_eq.
    + by apply get_set_ne.
  - case_bool_decide as Hc; [tauto|].
    by rewrite get_set_ne.
Qed.

End Tables.

Lemma for_loop_inv {S} (P : nat → S → Prop) n lo body (s : S) :
  P lo s →
  (∀ i s, (lo ≤ i < lo + n)%nat → P i s → ∃ s', body i s = Some s' ∧ P (Datatypes.S i) s') →
  ∃ s', for_loop n lo body s = Some s' ∧ P (lo + n)%nat s'.
Proof.
  revert lo s. induction n as [|n IH]; intros lo s H0 Hstep; simpl.
  - exists s. by rewrite Nat.add_0_r.
  - destruct (Hstep lo s) as (s' & -> & Hs'); [lia|done|]. simpl.
    destruct (IH (Datatypes.S lo) s') as (s'' & -> & Hs''); [done| |].
    + intros i t Hi. apply Hstep. lia.
    + exists s''. split; [done|]. by replace (lo + Datatypes.S n)%nat with (Datatypes.S lo + n)%nat by lia.
Qed.

Lemma for_to_inv {S} (P : nat → S → Prop) lo hi body (s : S) :
  (lo ≤ Datatypes.S hi)%nat →
  P lo s →
  (∀ i s, (lo ≤ i ≤ hi)%nat → P i s → ∃ s', body i s = Some s' ∧ P (Datatypes.S i) s') →
  ∃ s', for_to lo hi body s = Some s' ∧ P (Datatypes.S hi) s'.
Proof.
  intros Hle H0 Hstep. unfold for_to.
  destruct (for_loop_inv P (Datatypes.S hi - lo) lo body s) as (s' & ? & Hs'); [done| |].
  - intros i t Hi. apply Hstep. lia.
  - exists s'. split; [done|]. by replace (Datatypes.S hi) with (lo + (Datatypes.S hi - lo))%nat by lia.
Qed.

(** ** Filling a table

    Both functions build their table the same way: a first loop creates the
    rows, a second one writes row 0, and a double loop writes every other
    cell from its three neighbours. *)

Section Fill.
Variables (X Y : nat) (g h : nat → nat) (f : nat → nat → nat).
Variable cell : Array (Array nat) → nat → nat → option nat.

Hypothesis corner : g 0%nat = h 0%nat.
Hypothesis column : ∀ i, (i ≤ X)%nat → f i 0%nat = g i.
Hypothesis row : ∀ j, (j ≤ Y)%nat → f 0%nat j = h j.
Hypothesis inner : ∀ table x y,
  (1 ≤ x ≤ X)%nat → (1 ≤ y ≤ Y)%nat →
  get2 table (x - 1) (y - 1) = Some (f (x - 1) (y - 1))%nat →
  get2 table (x - 1) y = Some (f (x - 1) y)%nat →
  get2 table x (y - 1) = Some (f x (y - 1))%nat →
  cell table x y = Some (f x y).

Lemma rows_created :
  ∃ table, for_to 0 X (λ x table, Some (set table x [Some (g x)])) [] = Some table
    ∧ ∀ i, (i ≤ X)%nat → get table i = Some [Some (g i)].
Proof.
  destruct (for_to_inv
    (λ x (t : Array (Array nat)), ∀ i, (i < x)%nat → get t i = Some [Some (g i)])
    0 X (λ x table, Some (set table x [Some (g x)])) []) as (t & Ht & Hinv).
  - lia.
  - intros i Hi. lia.
  - intros x t _ Hinv. eexists; split; [done|]. intros i Hi.
    destruct (decide (i = x)) as [->|Hne].
    + apply get_set_eq.
    + rewrite get_set_ne by done. apply Hinv. lia.
  - exists t. split; [done|]. intros i Hi. apply Hinv. lia.
Qed.

Lemma axes_written table :
  (∀ i, (i ≤ X)%nat → get table i = Some [Some (g i)]) →
  ∃ table', for_to 0 Y (λ y table, set2 table 0 y (h y)) table = Some table'
    ∧ ∀ i j, (i ≤ X)%nat → (j ≤ Y)%nat → i = 0%nat ∨ j = 0%nat →
        get2 table' i j = Some (f i j).
Proof.
  intros Hrows.
  destruct (for_to_inv
    (λ y (t : Array (Array nat)),
       ∀ i j, (i ≤ X)%nat →
         (i = 0%nat ∧ (j < y)%nat) ∨ (j = 0%nat) →
         get2 t i j = Some (f i j))
    0 Y (λ y table, set2 table 0 y (h y)) table) as (t & Ht & Hinv).
  - lia.
  - intros i j Hi [[_ ?] | ->]; [lia|].
    unfold get2. rewrite Hrows by done. simpl. by rewrite column.
  - intros y t Hy Hinv.
    destruct (set2_is_Some t 0 y (h y) 0) as [t' Ht'].
    { rewrite (Hinv 0%nat 0%nat); [done|lia|by right]. }
    exists t'. split; [done|]. intros i j Hi Hij.
    rewrite (get2_set2 _ _ _ _ _ i j Ht').
    case_bool_decide as Hc.
    + destruct Hc as [-> ->]. rewrite row; [done|lia].
    + apply Hinv; [done|]. destruct Hij as [[-> ?] | ->]; [left|by right].
      split; [done|]. destruct (decide (j = y)); [tauto|lia].
  - exists t. split; [done|]. intros i j Hi Hj Hij. apply Hinv; [done|].
    destruct Hij as [-> | ->]; [left; split; [done|lia]|by right].
Qed.

Lemma cells_written table :
  (∀ i j, (i ≤ X)%nat → (j ≤ Y)%nat → i = 0%nat ∨ j = 0%nat →
     get2 table i j = Some (f i j)) →
  ∃ table',
    for_to 1 X (λ x table,
      for_to 1 Y (λ y table, v ← cell table x y; set2 table x y v) table) table
    = Some table'
    ∧ ∀ i j, (i ≤ X)%nat → (j ≤ Y)%nat → get2 table' i j = Some (f i j).
Proof.
  intros Hinit.
  destruct (for_to_inv
    (λ x (t : Array (Array nat)),
       ∀ i j, (i ≤ X)%nat → (j ≤ Y)%nat →
         i = 0%nat ∨ j = 0%nat ∨ (i < x)%nat → get2 t i j = Some (f i j))
    1 X (λ x table,
      for_to 1 Y (λ y table, v ← cell table x y; set2 table x y v) table)
    table) as (t & Ht & Hinv).
  - lia.
  - intros i j Hi Hj Hij. apply Hinit; [done..|lia].
  - intros x t Hx Hout.
    destruct (for_to_inv
      (λ y (t : Array (Array nat)),
         ∀ i j, (i ≤ X)%nat → (j ≤ Y)%nat →
           i = 0%nat ∨ j = 0%nat ∨ (i < x)%nat ∨ (i = x ∧ (j < y)%nat) →
           get2 t i j = Some (f i j))
      1 Y (λ y table, v ← cell table x y; set2 table x y v) t)
      as (t' & Ht' & Hinv').
    + lia.
    + intros i j Hi Hj Hij. apply Hout; [done..|lia].
    + intros y u Hy Hin.
      rewrite (inner u x y) by (try apply Hin; lia). simpl.
      destruct (set2_is_Some u x y (f x y) 0) as [u' Hu'].
      { rewrite (Hin x 0%nat); [done|lia..]. }
      exists u'. split; [done|]. intros i j Hi Hj Hij.
      rewrite (get2_set2 _ _ _ _ _ i j Hu').
      case_bool_decide as Hc; [by destruct Hc as [-> ->]|].
      apply Hin; [done..|].
      destruct (decide (i = x ∧ j = y)); [done|lia].
    + exists t'. split; [done|]. intros i j Hi Hj Hij.
      apply Hinv'; [done..|lia].
  - exists t. split; [done|]. intros i j Hi Hj. apply Hinv; [done..|lia].
Qed.

(** The three loops in sequence leave [f x y] in every cell. *)
Lemma table_filled :
  ∃ t1 t2 t3,
    for_to 0 X (λ x table, Some (set table x [Some (g x)])) [] = Some t1
    ∧ for_to 0 Y (λ y table, set2 table 0 y (h y)) t1 = Some t2
    ∧ for_to 1 X (λ x table,
        for_to 1 Y (λ y table, v ← cell table x y; set2 table x y v) table) t2
      = Some t3
    ∧ get2 t3 X Y = Some (f X Y).
Proof.
  destruct rows_created as (t1 & H1 & Hrows).
  destruct (axes_written t1 Hrows) as (t2 & H2 & Haxes).
  destruct (cells_written t2 Haxes) as (t3 & H3 & Hcells).
  exists t1, t2, t3. repeat split; [done..|]. by apply Hcells.
Qed.
End Fill.

(** ** The edit-distance recurrence *)

Lemma lev_nil_l b : lev [] b = length b.
Proof. done. Qed.

Lemma lev_nil_r a : lev a [] = length a.
Proof. by destruct a. Qed.

Lemma lev_cons x a y b :
  lev (x :: a) (y :: b) =
    if bool_decide (x = y) then lev a b
    else S (Math_min3 (lev a (y :: b)) (lev (x :: a) b) (lev a b)).
Proof. done. Qed.

Lemma lev_cons_eq x a b : lev (x :: a) (x :: b) = lev a b.
Proof. rewrite lev_cons. by case_bool_decide. Qed.

Lemma lev_cons_ne x a y b :
  x ≠ y →
  lev (x :: a) (y :: b) = S (Math_min3 (lev a (y :: b)) (lev (x :: a) b) (lev a b)).
Proof. intros. rewrite lev_cons. by case_bool_decide. Qed.

Lemma lev_refl a : lev a a = 0%nat.
Proof. induction a as [|x a IH]; [done|]. by rewrite lev_cons_eq. Qed.

(** Adding one character to either string moves the value by at most 1. *)
Lemma lev_step_bounded n : ∀ a b,
  (length a + length b ≤ n)%nat →
  (∀ x, (lev (x :: a) b ≤ S (lev a b))%nat ∧ (lev a b ≤ S (lev (x :: a) b))%nat)
  ∧ (∀ y, (lev a (y :: b) ≤ S (lev a b))%nat ∧ (lev a b ≤ S (lev a (y :: b)))%nat).
Proof.
  induction n as [|n IH]; intros a b Hn.
  - destruct a, b; simpl in Hn; try lia.
    split; intros c; rewrite ?lev_nil_l, ?lev_nil_r; simpl; lia.
  - split.
    + intros x. destruct b as [|y b'].
      { rewrite !lev_nil_r. simpl. lia. }
      simpl in Hn.
      destruct (IH a b') as [H1 H2]; [lia|].
      specialize (H1 x). specialize (H2 y).
      destruct (decide (x = y)) as [->|Hxy].
      * rewrite lev_cons_eq. lia.
      * rewrite lev_cons_ne by done. unfold Math_min3. lia.
    + intros y. destruct a as [|x a'].
      { rewrite !lev_nil_l. simpl. lia. }
      simpl in Hn.
      destruct (IH a' b) as [H1 H2]; [lia|].
      specialize (H1 x). specialize (H2 y).
      destruct (decide (x = y)) as [->|Hxy].
      * rewrite lev_cons_eq. lia.
      * rewrite lev_cons_ne by done. unfold Math_min3. lia.
Qed.

Lemma lev_drop_l x a b : (lev (x :: a) b ≤ S (lev a b))%nat.
Proof. by apply (lev_step_bounded (length a + length b) a b). Qed.

Lemma lev_add_l x a b : (lev a b ≤ S (lev (x :: a) b))%nat.
Proof. by apply (lev_step_bounded (length a + length b) a b). Qed.

Lemma lev_drop_r y a b : (lev a (y :: b) ≤ S (lev a b))%nat.
Proof. by apply (lev_step_bounded (length a + length b) a b). Qed.

Lemma lev_replace x y a b : (lev (x :: a) (y :: b) ≤ S (lev a b))%nat.
Proof.
  destruct (decide (x = y)) as [->|Hxy].
  - rewrite lev_cons_eq. lia.
  - rewrite lev_cons_ne by done. unfold Math_min3. lia.
Qed.

Lemma lev_substitute c d q b : (lev (c :: q) b ≤ S (lev (d :: q) b))%nat.
Proof.
  induction b as [|y b IH].
  - rewrite !lev_nil_r. simpl. lia.
  - pose proof (lev_replace c y q b).
    pose proof (lev_drop_l c q (y :: b)).
    pose proof (lev_drop_r y (c :: q) b).
    destruct (decide (d = y)) as [->|Hdy].
    + rewrite (lev_cons_eq y). lia.
    + rewrite (lev_cons_ne d) by done. unfold Math_min3. lia.
Qed.

Lemma lev_under_cons x s t :
  (∀ b, (lev s b ≤ S (lev t b))%nat) →
  ∀ b, (lev (x :: s) b ≤ S (lev (x :: t) b))%nat.
Proof.
  intros Hst b. induction b as [|y b IH].
  - rewrite !lev_nil_r. specialize (Hst []). rewrite !lev_nil_r in Hst.
    simpl. lia.
  - pose proof (Hst (y :: b)). pose proof (Hst b).
    destruct (decide (x = y)) as [->|Hxy].
    + by rewrite !lev_cons_eq.
    + rewrite !lev_cons_ne by done. unfold Math_min3. lia.
Qed.

Lemma lev_edit s t : Spec.edit s t → ∀ b, (lev s b ≤ S (lev t b))%nat.
Proof.
  intros [p c q|p c q|p c d q]; induction p as [|x p IH]; simpl;
    try (by apply lev_under_cons); intros b.
  - apply lev_add_l.
  - apply lev_drop_l.
  - apply lev_substitute.
Qed.

Lemma lev_lower_bound n a b : Spec.edits n a b → (lev a b ≤ n)%nat.
Proof.
  induction 1 as [s|n s t u Hst _ IH].
  - by rewrite lev_refl.
  - pose proof (lev_edit s t Hst u). lia.
Qed.

(** ** Edit scripts *)

Lemma edit_cons x s t : Spec.edit s t → Spec.edit (x :: s) (x :: t).
Proof.
  intros [p c q|p c q|p c d q].
  - apply (Spec.edit_insert (x :: p)).
  - apply (Spec.edit_delete (x :: p)).
  - apply (Spec.edit_substitute (x :: p)).
Qed.

Lemma edits_cons x n s t : Spec.edits n s t → Spec.edits n (x :: s) (x :: t).
Proof.
  induction 1 as [s|n s t u Hst _ IH]; [constructor|].
  eapply Spec.edits_S; [by apply edit_cons|done].
Qed.

Lemma edits_trans n m s t u :
  Spec.edits n s t → Spec.edits m t u → Spec.edits (n + m) s u.
Proof.
  induction 1 as [s|n s s' t Hss' _ IH]; intros Htu; [done|].
  simpl. eapply Spec.edits_S; [done|by apply IH].
Qed.

Lemma edits_then_insert n s t y :
  Spec.edits n s t → Spec.edits (S n) s (y :: t).
Proof.
  intros Hst. replace (S n) with (n + 1)%nat by lia.
  eapply edits_trans; [done|].
  eapply Spec.edits_S; [apply (Spec.edit_insert [] y t)|constructor].
Qed.

Lemma edits_build b : Spec.edits (length b) [] b.
Proof.
  induction b as [|y b IH]; [constructor|]. by apply edits_then_insert.
Qed.

Lemma edits_erase a : Spec.edits (length a) a [].
Proof.
  induction a as [|x a IH]; [constructor|].
  eapply Spec.edits_S; [apply (Spec.edit_delete [] x a)|done].
Qed.

Lemma lev_achieved a : ∀ b, Spec.edits (lev a b) a b.
Proof.
  induction a as [|x a IHa]; intros b.
  - rewrite lev_nil_l. apply edits_build.
  - induction b as [|y b IHb].
    + rewrite lev_nil_r. apply edits_erase.
    + destruct (decide (x = y)) as [->|Hxy].
      * rewrite lev_cons_eq. apply edits_cons, IHa.
      * rewrite lev_cons_ne by done.
        pose proof (IHa (y :: b)) as HA. pose proof (IHa b) as HC.
        unfold Math_min3.
        destruct (Nat.min_dec (lev a (y :: b) `min` lev (x :: a) b) (lev a b))
          as [->| ->];
          [destruct (Nat.min_dec (lev a (y :: b)) (lev (x :: a) b)) as [->| ->]|].
        -- eapply Spec.edits_S; [apply (Spec.edit_delete [] x a)|done].
        -- by apply edits_then_insert.
        -- eapply Spec.edits_S; [apply (Spec.edit_substitute [] x y a)|].
           by apply edits_cons.
Qed.

Lemma edit_reverse s t : Spec.edit s t → Spec.edit (reverse s) (reverse t).
Proof.
  intros [p c q|p c q|p c d q];
    rewrite ?reverse_app, ?reverse_cons, <- ?(assoc_L (++)); simpl;
    constructor.
Qed.

Lemma edits_reverse n s t : Spec.edits n s t → Spec.edits n (reverse s) (reverse t).
Proof.
  induction 1 as [s|n s t u Hst _ IH]; [constructor|].
  eapply Spec.edits_S; [by apply edit_reverse|done].
Qed.

Lemma lev_reverse_Levenshtein a b :
  Spec.Levenshtein a b (lev (reverse a) (reverse b)).
Proof.
  split.
  - rewrite <- (reverse_involutive a) at 2.
    rewrite <- (reverse_involutive b) at 2.
    apply edits_reverse, lev_achieved.
  - intros m Hm. by apply lev_lower_bound, edits_reverse.
Qed.

(** ** [fullStringDistance] computes the recurrence *)

Lemma reverse_take_S (s : str) i c :
  s !! i = Some c → reverse (take (S i) s) = c :: reverse (take i s).
Proof. intros Hc. by rewrite (take_S_r _ _ _ Hc), reverse_snoc. Qed.

Lemma fullStringDistance_lev a b :
  fullStringDistance a b = Some (lev (reverse a) (reverse b)).
Proof.
  unfold fullStringDistance.
  case_bool_decide as Ha.
  { apply nil_length_inv in Ha as ->. by rewrite lev_nil_l, length_reverse. }
  case_bool_decide as Hb.
  { apply nil_length_inv in Hb as ->. by rewrite lev_nil_r, length_reverse. }
  destruct (table_filled (length a) (length b) (λ x, x) (λ y, y)
    (λ i j, lev (reverse (take i a)) (reverse (take j b)))
    (λ table x y,
       if strictEq (charAt a (x - 1)) (charAt b (y - 1))
       then get2 table (x - 1) (y - 1)
       else
         sub ← get2 table (x - 1) y;
         ins ← get2 table x (y - 1);
         del ← get2 table (x - 1) (y - 1);
         Some (1 + Math_min3 sub ins del)%nat))
    as (t1 & t2 & t3 & H1 & H2 & H3 & Hres).
  - done.
  - intros i Hi. by rewrite lev_nil_r, length_reverse, length_take_le.
  - intros j Hj. by rewrite lev_nil_l, length_reverse, length_take_le.
  - intros table x y Hx Hy.
    destruct x as [|x]; [lia|]. destruct y as [|y]; [lia|].
    replace (S x - 1)%nat with x by lia. replace (S y - 1)%nat with y by lia.
    intros Hdiag Hup Hleft.
    destruct (lookup_lt_is_Some_2 a x) as [cx Hcx]; [lia|].
    destruct (lookup_lt_is_Some_2 b y) as [cy Hcy]; [lia|].
    rewrite (reverse_take_S a _ _ Hcx), (reverse_take_S b _ _ Hcy) in *.
    unfold charAt, strictEq. rewrite Hcx, Hcy, Hdiag.
    destruct (decide (cx = cy)) as [->|Hne].
    + rewrite bool_decide_eq_true_2 by done. by rewrite lev_cons_eq.
    + rewrite bool_decide_eq_false_2 by congruence.
      rewrite lev_cons_ne by done.
      by rewrite Hup, Hleft.
  - apply bind_Some. exists t1. split; [exact H1|].
    apply bind_Some. exists t2. split; [exact H2|].
    apply bind_Some. exists t3. split; [exact H3|].
    cbv beta in Hres. by rewrite !firstn_all in Hres.
Qed.

(** ** [indexOf] and containment *)

Lemma startsWith_prefix a b : startsWith a b = true ↔ ∃ q, a = b ++ q.
Proof.
  revert a. induction b as [|v b IH]; intros a; simpl.
  - split; [intros _; by exists a|intros _; by destruct a].
  - destruct a as [|u a]; simpl.
    + split; [done|]. by intros [q ?].
    + rewrite andb_true_iff, Z.eqb_eq, IH. split.
      * intros [-> [q ->]]. by exists q.
      * intros [q [= -> ->]]. eauto.
Qed.

Lemma indexOf_from_contains a b : ∀ k,
  0 ≤ k → (indexOf_from a b k ≠ -1 ↔ Spec.contains a b).
Proof.
  induction a as [|u a IH]; intros k Hk.
  - destruct b as [|v b]; simpl.
    + split; [|intros _; lia]. intros _. by exists [], [].
    + split; [done|]. intros (p & q & Hpq).
      symmetry in Hpq. apply app_eq_nil in Hpq as [_ Hpq]. done.
  - change (indexOf_from (u :: a) b k)
      with (if startsWith (u :: a) b then k else indexOf_from a b (k + 1)).
    destruct (startsWith (u :: a) b) eqn:Hsw.
    + split; [|intros _; lia]. intros _.
      apply startsWith_prefix in Hsw as [q ->]. by exists [], q.
    + rewrite IH by lia. split.
      * intros (p & q & ->). by exists (u :: p), q.
      * intros ([|u' p] & q & Hpq).
        -- simpl in Hpq. assert (startsWith (u :: a) b = true) as Hsw'
             by (apply startsWith_prefix; eauto).
           congruence.
        -- injection Hpq as -> ->. by exists p, q.
Qed.

Lemma indexOf_contains a b : indexOf a b ≠ -1 ↔ Spec.contains a b.
Proof. by apply indexOf_from_contains. Qed.

(** ** [typeaheadSimilarity] *)

Lemma lcsCell_column a b i : lcsCell a b i 0 = 0%nat.
Proof. by destruct i. Qed.

Lemma lcsCell_S a b x y :
  lcsCell a b (S x) (S y) =
    if strictEq (charAt a x) (charAt b y) then S (lcsCell a b x y)
    else (lcsCell a b (S x) y `max` lcsCell a b x (S y))%nat.
Proof. done. Qed.

(** The table part of [typeaheadSimilarity]: the loops run to the lengths
    [X] and [Y] over the strings [a] and [b]. *)
Lemma lcs_table_filled (a b : str) X Y :
  let table : Array (Array nat) := [] in
  (table ← for_to 0 X (λ x table, Some (set table x [Some 0%nat])) table;
   table ← for_to 0 Y (λ y table, set2 table 0 y 0%nat) table;
   table ← for_to 1 X (λ x table,
     for_to 1 Y (λ y table,
       v ← (if strictEq (charAt a (x - 1)) (charAt b (y - 1))
            then d ← get2 table (x - 1) (y - 1); Some (1 + d)%nat
            else
              l ← get2 table x (y - 1);
              u ← get2 table (x - 1) y;
              Some (l `max` u)%nat);
       set2 table x y v) table) table;
   n ← get2 table X Y;
   Some (Number n))
  = Some (Number (lcsCell a b X Y)).
Proof.
  intros table.
  destruct (table_filled X Y (λ _, 0%nat) (λ _, 0%nat) (lcsCell a b)
    (λ table x y,
       if strictEq (charAt a (x - 1)) (charAt b (y - 1))
       then d ← get2 table (x - 1) (y - 1); Some (1 + d)%nat
       else
         l ← get2 table x (y - 1);
         u ← get2 table (x - 1) y;
         Some (l `max` u)%nat))
    as (t1 & t2 & t3 & H1 & H2 & H3 & Hres).
  - done.
  - intros i _. apply lcsCell_column.
  - done.
  - intros t x y Hx Hy.
    destruct x as [|x]; [lia|]. destruct y as [|y]; [lia|].
    replace (S x - 1)%nat with x by lia. replace (S y - 1)%nat with y by lia.
    intros Hdiag Hup Hleft. rewrite lcsCell_S.
    destruct (strictEq (charAt a x) (charAt b y)).
    + by rewrite Hdiag.
    + by rewrite Hleft, Hup.
  - apply bind_Some. exists t1. split; [exact H1|].
    apply bind_Some. exists t2. split; [exact H2|].
    apply bind_Some. exists t3. split; [exact H3|].
    apply bind_Some. by exists (lcsCell a b X Y).
Qed.

(** What [typeaheadSimilarity] returns, case by case. *)
Lemma typeaheadSimilarity_empty a b :
  a = [] ∨ b = [] → typeaheadSimilarity a b = Some 0%Q.
Proof.
  intros Hab. unfold typeaheadSimilarity.
  destruct Hab as [-> | ->]; simpl; [done|].
  by rewrite orb_true_r.
Qed.

Lemma typeaheadSimilarity_nonempty a b :
  a ≠ [] → b ≠ [] →
  typeaheadSimilarity a b =
    let '(a', b') := if bool_decide (length a < length b)%nat then (b, a) else (a, b) in
    if negb (indexOf a' b' =? -1)
    then Some (Number (length b) + 1 / Number (length a))%Q
    else Some (Number (lcsCell a' b' (length a) (length b))).
Proof.
  intros Ha Hb. unfold typeaheadSimilarity.
  rewrite (bool_decide_eq_false_2 (length a = 0%nat))
    by (by intros ?%nil_length_inv).
  rewrite (bool_decide_eq_false_2 (length b = 0%nat))
    by (by intros ?%nil_length_inv).
  simpl.
  destruct (bool_decide (length a < length b)%nat);
    (destruct (negb (indexOf _ _ =? -1)); [done|apply lcs_table_filled]).
Qed.

Lemma typeaheadSimilarity_total a b : is_Some (typeaheadSimilarity a b).
Proof.
  destruct (decide (a = [])) as [Ha|Ha].
  { rewrite typeaheadSimilarity_empty; eauto. }
  destruct (decide (b = [])) as [Hb|Hb].
  { rewrite typeaheadSimilarity_empty; eauto. }
  rewrite typeaheadSimilarity_nonempty by done.
  destruct (bool_decide (length a < length b)%nat);
    destruct (negb (indexOf _ _ =? -1)); eauto.
Qed.

(** Without a swap the table is that of the longest common subsequence,
    which does not depend on the order of the two strings. *)
Lemma strictEq_sym x y : strictEq x y = strictEq y x.
Proof. unfold strictEq. by repeat case_bool_decide. Qed.

Lemma lcsCell_sym a b x : ∀ y, lcsCell a b x y = lcsCell b a y x.
Proof.
  induction x as [|x IHx]; intros y.
  - by rewrite lcsCell_column.
  - induction y as [|y IHy]; [done|].
    rewrite !lcsCell_S, (strictEq_sym (charAt b y)), IHx, IHy, (IHx (S y)).
    destruct (strictEq _ _); [done|lia].
Qed.

Lemma contains_same_length a b :
  length a = length b → Spec.contains a b → a = b.
Proof.
  intros Hlen (p & q & ->). rewrite !length_app in Hlen.
  destruct p; [|simpl in Hlen; lia]. destruct q; [|simpl in Hlen; lia].
  simpl. by rewrite app_nil_r.
Qed.

Lemma typeaheadSimilarity_sym_same_length a b :
  length a = length b → typeaheadSimilarity a b = typeaheadSimilarity b a.
Proof.
  intros Hlen.
  destruct (decide (a = [])) as [->|Ha].
  { by rewrite !typeaheadSimilarity_empty by auto. }
  assert (b ≠ []) as Hb by (intros ->; by destruct a).
  rewrite !typeaheadSimilarity_nonempty by done.
  rewrite !bool_decide_eq_false_2 by lia.
  destruct (decide (a = b)) as [->|Hne]; [done|].
  assert (indexOf a b = -1) as ->.
  { destruct (decide (indexOf a b = -1)) as [|Hsub]; [done|].
    apply indexOf_contains, contains_same_length in Hsub; done. }
  assert (indexOf b a = -1) as ->.
  { destruct (decide (indexOf b a = -1)) as [|Hsub]; [done|].
    apply indexOf_contains, contains_same_length in Hsub; done. }
  simpl. by rewrite lcsCell_sym, Hlen.
Qed.

(** ** [toUpperCase] and the strip pattern *)

Lemma isCleanChar_spec u : isCleanChar u = true ↔ cleanChar u.
Proof.
  unfold isCleanChar, cleanChar.
  split; [intros H|intros H]; split_comparisons; simpl in *; try done; lia.
Qed.

Lemma kept_cleanChar u :
  stripMatches u = false → lowerOrAccent u = false → cleanChar u.
Proof.
  unfold stripMatches, lowerOrAccent, inAccentRange, isWordChar, cleanChar.
  intros H1 H2. split_comparisons; simpl in *; try done; lia.
Qed.

Lemma cleanChar_kept u : cleanChar u → stripMatches u = false.
Proof.
  unfold stripMatches, inAccentRange, isWordChar, cleanChar.
  intros H. split_comparisons; simpl in *; try done; lia.
Qed.

Lemma cleanChar_not_surrogate u : cleanChar u → isHighSurrogate u = false.
Proof.
  unfold isHighSurrogate, cleanChar.
  intros H. split_comparisons; simpl in *; try done; lia.
Qed.

Lemma latin1_cases (P : Z → bool) :
  forallb P (seqZ 0 256) = true → ∀ u, 0 ≤ u < 256 → P u = true.
Proof.
  intros Hall u Hu. rewrite forallb_forall in Hall. apply Hall.
  apply list_elem_of_In, elem_of_seqZ. lia.
Qed.

Lemma toUppercase_latin1 u cp :
  0 ≤ u < 256 → cp ∈ toUppercase u → lowerOrAccent cp = false.
Proof.
  intros Hu Hcp.
  pose proof (latin1_cases
    (λ u, forallb (λ cp, negb (lowerOrAccent cp)) (toUppercase u))) as Hall.
  cbv beta in Hall. specialize (Hall ltac:(by vm_compute) u Hu).
  rewrite forallb_forall in Hall.
  apply negb_true_iff, Hall. by apply list_elem_of_In.
Qed.

Lemma SpecialUppercase_avoids :
  forallb (λ e, forallb (λ cp, negb (lowerOrAccent cp)) (snd e)) SpecialUppercase = true.
Proof. by vm_compute. Qed.

Lemma UppercaseRuns_avoid : forallb runAvoids UppercaseRuns = true.
Proof. by vm_compute. Qed.

Lemma toUppercase_avoids u cp : cp ∈ toUppercase u → lowerOrAccent cp = false.
Proof.
  destruct (decide (0 ≤ u < 256)) as [Hu|Hu]; [by apply toUppercase_latin1|].
  unfold toUppercase, simpleUppercase.
  destruct (List.find _ SpecialUppercase) as [[u' cps]|] eqn:Hsp.
  - apply find_some in Hsp as [Hin _].
    pose proof SpecialUppercase_avoids as Hall.
    rewrite forallb_forall in Hall. specialize (Hall _ Hin). simpl in Hall.
    rewrite forallb_forall in Hall. intros Hcp.
    apply negb_true_iff, Hall. by apply list_elem_of_In.
  - destruct (List.find _ UppercaseRuns) as [[[[first last] step] delta]|] eqn:Hrun.
    + apply find_some in Hrun as [Hin Hrun].
      pose proof UppercaseRuns_avoid as Hall.
      rewrite forallb_forall in Hall. specialize (Hall _ Hin).
      intros ->%list_elem_of_singleton.
      unfold inRun in Hrun. unfold runAvoids in Hall.
      unfold lowerOrAccent, inAccentRange.
      split_comparisons; simpl in *; try done; lia.
    + intros ->%list_elem_of_singleton.
      unfold lowerOrAccent, inAccentRange.
      split_comparisons; simpl in *; try done; lia.
Qed.

Lemma CodePointToUnits_avoids cp u :
  lowerOrAccent cp = false → u ∈ CodePointToUnits cp → lowerOrAccent u = false.
Proof.
  unfold CodePointToUnits. intros Hcp.
  destruct (Z.leb_spec cp 0xFFFF) as [Hle|Hgt].
  - by intros ->%list_elem_of_singleton.
  - pose proof (Z.div_pos (cp - 0x10000) 0x400).
    pose proof (Z.mod_pos_bound (cp - 0x10000) 0x400).
    intros Hu. apply elem_of_cons in Hu as [->|Hu];
      [|apply list_elem_of_singleton in Hu as ->];
      unfold lowerOrAccent, inAccentRange;
      split_comparisons; simpl in *; try done; lia.
Qed.

Lemma toUpperCase_avoids s u : u ∈ toUpperCase s → lowerOrAccent u = false.
Proof.
  unfold toUpperCase, CodePointsToString.
  intros (units & (cp & <- & Hcp)%in_map_iff & Hu)%list_elem_of_In%in_concat.
  apply in_concat in Hcp as (cps & (cp0 & <- & _)%in_map_iff & Hcp).
  eapply CodePointToUnits_avoids; [|by apply list_elem_of_In].
  eapply toUppercase_avoids. by apply list_elem_of_In.
Qed.

Lemma stripReplace_toUpperCase_clean s :
  Forall cleanChar (stripReplace (toUpperCase s)).
Proof.
  apply List.Forall_forall. intros u [Hin Hkeep]%filter_In.
  apply kept_cleanChar.
  - by apply negb_true_iff.
  - eapply toUpperCase_avoids. by apply list_elem_of_In.
Qed.

Lemma StringToCodePoints_clean c : Forall cleanChar c → StringToCodePoints c = c.
Proof.
  induction 1 as [|u c Hu _ IH]; [done|].
  destruct c as [|v c]; [done|].
  change (StringToCodePoints (u :: v :: c))
    with (if isHighSurrogate u && isLowSurrogate v
          then (0x10000 + (u - 0xD800) * 0x400 + (v - 0xDC00)) :: StringToCodePoints c
          else u :: StringToCodePoints (v :: c)).
  rewrite (cleanChar_not_surrogate u Hu). cbn [andb]. by rewrite IH.
Qed.

Lemma toUppercase_clean u : cleanChar u → toUppercase u = [u].
Proof.
  intros Hu.
  pose proof (latin1_cases
    (λ u, negb (isCleanChar u) || bool_decide (toUppercase u = [u]))) as Hall.
  cbv beta in Hall. specialize (Hall ltac:(by vm_compute) u).
  apply isCleanChar_spec in Hu as Hb. rewrite Hb in Hall. simpl in Hall.
  eapply bool_decide_eq_true_1, Hall. unfold cleanChar in Hu. lia.
Qed.

Lemma toUpperCase_clean c : Forall cleanChar c → toUpperCase c = c.
Proof.
  intros Hc. unfold toUpperCase, CodePointsToString.
  rewrite StringToCodePoints_clean by done.
  induction Hc as [|u c Hu _ IH]; [done|]. simpl.
  rewrite (toUppercase_clean u Hu). simpl. rewrite IH.
  unfold CodePointToUnits at 1.
  destruct (Z.leb_spec u 0xFFFF); [done|]. unfold cleanChar in Hu. lia.
Qed.

Lemma stripReplace_clean c : Forall cleanChar c → stripReplace c = c.
Proof.
  induction 1 as [|u c Hu _ IH]; [done|]. unfold stripReplace in *. simpl.
  by rewrite (cleanChar_kept u Hu), IH.
Qed.

(** ** [cleanUpText] and [filterOptions] *)

Section LibraryFacts.
Context {RegExp V : Type}.
Variable RegExp_new : str → option RegExp.
Variable String_replace : str → RegExp → str → str.

Local Abbreviation cleanUp := (cleanUpText RegExp_new String_replace).
Local Abbreviation score_of := (@scoreOf RegExp V RegExp_new String_replace).
Local Abbreviation filter_options := (@filterOptions RegExp V RegExp_new String_replace).

Lemma cleanUpText_no_table input :
  ∃ c, cleanUp input None = Some c ∧ Forall cleanChar c.
Proof.
  destruct input as [[|u s]|]; simpl; eauto using stripReplace_toUpperCase_clean.
Qed.

Lemma cleanUpText_clean c :
  Forall cleanChar c → cleanUp (Some c) None = Some c.
Proof.
  intros Hc. destruct c as [|u c]; [done|]. simpl.
  change (Some (stripReplace (toUpperCase (u :: c))) = Some (u :: c)).
  by rewrite toUpperCase_clean, stripReplace_clean.
Qed.

(** Whether the substitutions can be applied depends on the patterns
    only, not on the text. *)
Lemma reduce_patterns (table : Substitutions) : ∀ text text',
  is_Some (reduce (λ output '(substitution, replacement),
                     unsubbed ← RegExp_new substitution;
                     Some (String_replace output unsubbed replacement))
                  table text) →
  is_Some (reduce (λ output '(substitution, replacement),
                     unsubbed ← RegExp_new substitution;
                     Some (String_replace output unsubbed replacement))
                  table text').
Proof.
  induction table as [|[k v] table IH]; intros text text'; simpl; [eauto|].
  destruct (RegExp_new k); simpl; [apply IH|done].
Qed.

Lemma cleanUpText_total filter substitutions input :
  filter ≠ [] →
  is_Some (cleanUp (Some filter) substitutions) →
  is_Some (cleanUp input substitutions).
Proof.
  intros Hne Hsome.
  destruct input as [[|u s]|]; simpl; [eauto| |eauto].
  destruct substitutions as [table|]; [|eauto].
  destruct filter as [|w filter]; [done|]. simpl in Hsome.
  by eapply reduce_patterns.
Qed.

Lemma scoreOf_total filter substitutions cleanFilter opt :
  filter ≠ [] →
  is_Some (cleanUp (Some filter) substitutions) →
  is_Some (score_of cleanFilter substitutions opt).
Proof.
  intros Hne Hsome. unfold scoreOf.
  destruct (cleanUpText_total filter substitutions (label opt) Hne Hsome)
    as [cleanLabel ->].
  simpl. apply typeaheadSimilarity_total.
Qed.

(** The stages of [filterOptions] for a non-empty filter: [pairs] is the
    result of the first [map], aligned with the options that passed the
    null check. *)
Lemma filterOptions_stages options filter substitutions cleanFilter :
  filter ≠ [] →
  cleanUp (Some filter) substitutions = Some cleanFilter →
  ∃ pairs,
    Forall2 (λ o p, option_ p = o
                    ∧ score_of cleanFilter substitutions o = Some (score p))
      (List.filter (λ o, bool_decide (label o ≠ None)
                         && bool_decide (value o ≠ None)) options)
      pairs
    ∧ filter_options options (Some filter) substitutions =
        Some (option_ <$>
                sort (λ a b, score b - score a)%Q
                  (List.filter
                     (λ pair, Qle_bool (inject_Z (Z.of_nat (length cleanFilter) - 2))
                                       (score pair))
                     pairs)).
Proof.
  intros Hne Hclean.
  destruct filter as [|w filter]; [done|].
  set (present := List.filter _ options).
  assert (is_Some (mapM (λ opt,
                     score ← score_of cleanFilter substitutions opt;
                     Some {| option_ := opt; score := score |}) present))
    as [pairs Hpairs].
  { apply mapM_is_Some_2, Forall_forall. intros o _. simpl.
    destruct (scoreOf_total (w :: filter) substitutions cleanFilter o)
      as [s Hs]; [done|by rewrite Hclean|].
    rewrite Hs. simpl. eauto. }
  exists pairs. split.
  - apply mapM_Some_1 in Hpairs.
    eapply Forall2_impl; [exact Hpairs|].
    intros o p. simpl.
    destruct (score_of cleanFilter substitutions o); simpl; [|done].
    by intros [= <-].
  - unfold filterOptions. rewrite Hclean.
    cbn [mbind option_bind]. fold present. by rewrite Hpairs.
Qed.
End LibraryFacts.

(** ** Sorting by score *)

Lemma insertSorted_Permutation {A} (comparefn : A → A → Q) x arr :
  insertSorted comparefn x arr ≡ₚ x :: arr.
Proof.
  induction arr as [|y arr IH]; [done|]. simpl.
  destruct (Qle_bool _ _); [done|]. rewrite IH. apply Permutation_swap.
Qed.

Lemma sort_Permutation {A} (comparefn : A → A → Q) arr :
  sort comparefn arr ≡ₚ arr.
Proof.
  induction arr as [|x arr IH]; [done|]. unfold sort in *. simpl.
  by rewrite insertSorted_Permutation, IH.
Qed.

Lemma sort_elem_of {A} (comparefn : A → A → Q) arr x :
  x ∈ sort comparefn arr ↔ x ∈ arr.
Proof. by rewrite sort_Permutation. Qed.



(** The sort is stable: the elements of any one score keep their input
    order. *)
Lemma insertSorted_same_key {A} (key : A → Q) (k : Q) x arr :
  List.filter (λ y, Qeq_bool (key y) k)
    (insertSorted (λ a b, key b - key a)%Q x arr)
  = List.filter (λ y, Qeq_bool (key y) k) (x :: arr).
Proof.
  induction arr as [|y arr IH]; [done|]. cbn [insertSorted].
  destruct (Qle_bool (key y - key x) 0) eqn:Hxy; [done|].
  assert (¬ (key y - key x <= 0)%Q) as Hlt
    by (rewrite <- Qle_bool_iff; congruence).
  cbn [List.filter] in *. rewrite IH.
  destruct (Qeq_bool (key x) k) eqn:Hx; [|done].
  destruct (Qeq_bool (key y) k) eqn:Hy; [|done].
  apply Qeq_bool_iff in Hx, Hy. lra.
Qed.

Lemma sort_stable {A} (key : A → Q) (k : Q) arr :
  List.filter (λ y, Qeq_bool (key y) k) (sort (λ a b, key b - key a)%Q arr)
  = List.filter (λ y, Qeq_bool (key y) k) arr.
Proof.
  induction arr as [|x arr IH]; [done|]. unfold sort in *. cbn [foldr].
  rewrite insertSorted_same_key. cbn [List.filter]. by rewrite IH.
Qed.


(** ** Rational arithmetic for the substring bonus *)

Lemma Number_pos n : (1 ≤ n)%nat → (1 <= Number n)%Q.
Proof.
  intros Hn. unfold Number. change 1%Q with (inject_Z 1).
  rewrite <- Zle_Qle. lia.
Qed.


Lemma reciprocal_bounds (x : Q) :
  (1 <= x)%Q → (0 < 1 / x)%Q ∧ (1 / x <= 1)%Q.
Proof.
  intros Hx. split.
  - apply Qlt_shift_div_l; lra.
  - apply Qle_shift_div_r; lra.
Qed.


(** * The properties of the specification *)

(** C1.  For all strings [a] and [b], [fullStringDistance(a, b)] returns the
    Levenshtein distance of [a] and [b]: [a] can be transformed into [b] by
    that many single-character insertions, deletions and substitutions, and
    by no fewer.  In particular, when either string is empty the other's
    length is returned. *)
Theorem fullStringDistance_Levenshtein (a b : str) :
  (∃ n, fullStringDistance a b = Some n ∧ Spec.Levenshtein a b n)
  ∧ fullStringDistance [] b = Some (length b)
  ∧ fullStringDistance a [] = Some (length a).
Proof.
  split; [|split].
  - exists (lev (reverse a) (reverse b)). split.
    + apply fullStringDistance_lev.
    + apply lev_reverse_Levenshtein.
  - done.
  - destruct a; [done|]. unfold fullStringDistance.
    by repeat case_bool_decide.
Qed.


(** C3.  For a non-empty filter whose normalization succeeds with result
    [cleanFilter], [filterOptions] returns a list, and an option of the
    input with non-null label and value is in that list if and only if the
    similarity of its normalized label to [cleanFilter] is at least
    [length(cleanFilter) - 2].  The threshold is not clamped: when
    [cleanFilter] is empty every such option is in the list. *)
Theorem filterOptions_threshold {RegExp V : Type}
    (RegExp_new : str → option RegExp)
    (String_replace : str → RegExp → str → str)
    (options : list (@Option V)) (filter : str)
    (substitutions : option Substitutions) (cleanFilter : str) :
  filter ≠ [] →
  cleanUpText RegExp_new String_replace (Some filter) substitutions
    = Some cleanFilter →
  ∃ result,
    filterOptions RegExp_new String_replace options (Some filter) substitutions
      = Some result
    ∧ (∀ o, o ∈ options → label o ≠ None → value o ≠ None →
         ∃ cleanLabel s,
           cleanUpText RegExp_new String_replace (label o) substitutions
             = Some cleanLabel
           ∧ typeaheadSimilarity cleanLabel cleanFilter = Some s
           ∧ (o ∈ result
              ↔ (inject_Z (Z.of_nat (length cleanFilter) - 2) <= s)%Q))
    ∧ (cleanFilter = [] →
         ∀ o, o ∈ options → label o ≠ None → value o ≠ None → o ∈ result).
Proof.
  intros Hne Hclean.
  destruct (filterOptions_stages RegExp_new String_replace options filter
              substitutions cleanFilter Hne Hclean) as (pairs & Hpairs & Hres).
  eexists. split; [exact Hres|].
  assert (∀ o, o ∈ options → label o ≠ None → value o ≠ None →
            ∃ p, p ∈ pairs ∧ option_ p = o
              ∧ scoreOf RegExp_new String_replace cleanFilter substitutions o
                  = Some (score p)) as Hin.
  { intros o Ho Hl Hv.
    assert (o ∈ List.filter (λ o, bool_decide (label o ≠ None)
                                   && bool_decide (value o ≠ None)) options)
      as Hpresent.
    { apply list_elem_of_In, filter_In. split; [by apply list_elem_of_In|].
      by rewrite !bool_decide_eq_true_2. }
    apply list_elem_of_lookup in Hpresent as [i Hi].
    destruct (Forall2_lookup_l _ _ _ _ _ Hpairs Hi) as (p & Hp & Hop & Hs).
    exists p. split; [by eapply list_elem_of_lookup_2|done]. }
  assert (∀ o, o ∈ option_ <$> sort (λ a b, score b - score a)%Q
                 (List.filter
                    (λ pair, Qle_bool (inject_Z (Z.of_nat (length cleanFilter) - 2))
                                      (score pair)) pairs)
            ↔ ∃ p, p ∈ pairs ∧ option_ p = o
                ∧ (inject_Z (Z.of_nat (length cleanFilter) - 2) <= score p)%Q)
    as Hmem.
  { intros o. rewrite list_elem_of_fmap. split.
    - intros (p & -> & Hp). apply sort_elem_of in Hp.
      apply list_elem_of_In, filter_In in Hp as [Hp Hthr].
      exists p. split; [by apply list_elem_of_In|].
      split; [done|]. by apply Qle_bool_iff.
    - intros (p & Hp & <- & Hthr). exists p. split; [done|].
      apply sort_elem_of, list_elem_of_In, filter_In.
      split; [by apply list_elem_of_In|]. by apply Qle_bool_iff. }
  assert (∀ p, p ∈ pairs →
            scoreOf RegExp_new String_replace cleanFilter substitutions (option_ p)
              = Some (score p)) as Hscore.
  { intros p [i Hi]%list_elem_of_lookup.
    destruct (Forall2_lookup_r _ _ _ _ _ Hpairs Hi) as (o & _ & <- & Hs).
    done. }
  split.
  - intros o Ho Hl Hv. destruct (Hin o Ho Hl Hv) as (p & Hp & <- & Hs).
    unfold scoreOf in Hs.
    destruct (cleanUpText _ _ (label (option_ p)) _) as [cleanLabel|] eqn:Hcl;
      [|done].
    simpl in Hs. exists cleanLabel, (score p). split; [done|]. split; [done|].
    rewrite Hmem. split.
    + intros (p' & Hp' & Heq & Hthr).
      pose proof (Hscore p' Hp') as Hs'. rewrite Heq in Hs'.
      unfold scoreOf in Hs'. rewrite Hcl in Hs'. simpl in Hs'.
      rewrite Hs in Hs'. injection Hs' as Hs'. by rewrite Hs'.
    + intros Hthr. by exists p.
  - intros -> o Ho Hl Hv. destruct (Hin o Ho Hl Hv) as (p & Hp & <- & Hs).
    apply Hmem. exists p. split; [done|]. split; [done|].
    unfold scoreOf in Hs.
    destruct (cleanUpText _ _ (label (option_ p)) _) as [cleanLabel|]; [|done].
    simpl in Hs. rewrite typeaheadSimilarity_empty in Hs by auto.
    injection Hs as <-. by vm_compute.
Qed.

(** C4, evaluated on the code.  [cleanUpText("Scoil Bhríde Primary School")]
    without a substitution table returns "SCOILBHRDEPRIMARYSCHOOL": the
    accented letter is uppercased to U+00CD, which lies outside the range
    U+00E0-U+00FC that the strip pattern spares, and is removed.  The
    result is not "SCOILBHRIDEPRIMARYSCHOOL". *)
Theorem cleanUpText_school :
  cleanUpText Examples.noRegExp Examples.noReplace (Some Examples.school) None
    = Some (lit "SCOILBHRDEPRIMARYSCHOOL")
  ∧ toUpperCase [0xED] = [0xCD]
  ∧ stripMatches 0xCD = true
  ∧ cleanUpText Examples.noRegExp Examples.noReplace (Some Examples.school) None
    ≠ Some (lit "SCOILBHRIDEPRIMARYSCHOOL").
Proof. repeat split; by vm_compute. Qed.

(** C5.  With an empty or absent filter [filterOptions] returns its first
    argument unchanged, whatever the options and the substitution table
    are. *)
Theorem filterOptions_blank_filter {RegExp V : Type}
    (RegExp_new : str → option RegExp)
    (String_replace : str → RegExp → str → str)
    (options : list (@Option V)) (substitutions : option Substitutions) :
  filterOptions RegExp_new String_replace options (Some []) substitutions
    = Some options
  ∧ filterOptions RegExp_new String_replace options None substitutions
    = Some options.
Proof. done. Qed.

(** C6, as the code has it.  For a non-empty filter, the list returned by
    [filterOptions] contains no option whose label or value is null. *)
Theorem filterOptions_drops_null {RegExp V : Type}
    (RegExp_new : str → option RegExp)
    (String_replace : str → RegExp → str → str)
    (options : list (@Option V)) (filter : str)
    (substitutions : option Substitutions) (result : list (@Option V)) :
  filter ≠ [] →
  filterOptions RegExp_new String_replace options (Some filter) substitutions
    = Some result →
  ∀ o, o ∈ result → o ∈ options ∧ label o ≠ None ∧ value o ≠ None.
Proof.
  intros Hne Hres o Ho.
  destruct (cleanUpText RegExp_new String_replace (Some filter) substitutions)
    as [cleanFilter|] eqn:Hclean.
  - destruct (filterOptions_stages RegExp_new String_replace options filter
                substitutions cleanFilter Hne Hclean) as (pairs & Hpairs & Hres').
    rewrite Hres in Hres'. injection Hres' as ->.
    apply list_elem_of_fmap in Ho as (p & -> & Hp).
    apply sort_elem_of, list_elem_of_In, filter_In in Hp as [Hp _].
    apply list_elem_of_In, list_elem_of_lookup in Hp as [i Hi].
    destruct (Forall2_lookup_r _ _ _ _ _ Hpairs Hi) as (o & Ho & <- & _).
    apply list_elem_of_lookup_2, list_elem_of_In, filter_In in Ho as [Ho Hnn].
    apply andb_true_iff in Hnn as [Hl Hv].
    apply bool_decide_eq_true in Hl, Hv.
    split; [by apply list_elem_of_In|done].
  - destruct filter as [|w filter]; [done|].
    unfold filterOptions in Hres. by rewrite Hclean in Hres.
Qed.


(** C8, evaluated on the code.  Neither of "AB" and "XXAXB" contains the
    other, yet [typeaheadSimilarity("AB", "XXAXB")] is 0 and
    [typeaheadSimilarity("XXAXB", "AB")] is 2: after the swap the loops
    still run to the lengths read before it. *)
Theorem typeaheadSimilarity_swap_asymmetric :
  ¬ Spec.contains (lit "AB") (lit "XXAXB")
  ∧ ¬ Spec.contains (lit "XXAXB") (lit "AB")
  ∧ typeaheadSimilarity (lit "AB") (lit "XXAXB") = Some 0%Q
  ∧ typeaheadSimilarity (lit "XXAXB") (lit "AB") = Some 2%Q.
Proof.
  split; [|split; [|split]].
  - rewrite <- indexOf_contains. intros H. by apply H.
  - rewrite <- indexOf_contains. intros H. by apply H.
  - by vm_compute.
  - by vm_compute.
Qed.

(** C9.  Without a substitution table [cleanUpText] is idempotent: it
    returns a string, and applied to that string it returns it again. *)
Theorem cleanUpText_idempotent {RegExp : Type}
    (RegExp_new : str → option RegExp)
    (String_replace : str → RegExp → str → str) (input : option str) :
  ∃ c, cleanUpText RegExp_new String_replace input None = Some c
    ∧ cleanUpText RegExp_new String_replace (Some c) None = Some c.
Proof.
  destruct (cleanUpText_no_table RegExp_new String_replace input)
    as (c & Hc & Hclean).
  exists c. split; [done|]. by apply cleanUpText_clean.
Qed.

(** C10.  Without a substitution table, every code unit of the string that
    [cleanUpText] returns is an ASCII digit, an ASCII capital letter or the
    division sign U+00F7; in particular none is an accented Latin-1
    letter (U+00C0-U+00FF other than U+00D7 and U+00F7). *)
Theorem cleanUpText_alphabet {RegExp : Type}
    (RegExp_new : str → option RegExp)
    (String_replace : str → RegExp → str → str) (input : option str) :
  ∃ c, cleanUpText RegExp_new String_replace input None = Some c
    ∧ Forall cleanChar c
    ∧ Forall (λ u, ¬ (0xC0 ≤ u ≤ 0xFF ∧ u ≠ 0xD7 ∧ u ≠ 0xF7)) c.
Proof.
  destruct (cleanUpText_no_table RegExp_new String_replace input)
    as (c & Hc & Hclean).
  exists c. split; [done|]. split; [done|].
  eapply Forall_impl; [exact Hclean|]. unfold cleanChar. intros u Hu. lia.
Qed.

(** * Instances and counterexamples *)



(** With the shorter string first, the bonus is computed from the lengths
    read before the swap: "AB" against "XABY" scores [4 + 1/2], not
    [2 + 1/4]. *)
Lemma typeaheadSimilarity_swapped_bonus :
  typeaheadSimilarity (lit "AB") (lit "XABY") = Some (Number 4 + 1 / Number 2)%Q
  ∧ typeaheadSimilarity (lit "XABY") (lit "AB") = Some (Number 2 + 1 / Number 4)%Q.
Proof. split; by vm_compute. Qed.

(** In the engine's arithmetic the early exit of a one-character string
    against itself is exactly 2, as in the model. *)
Lemma earlyExit_single_character :
  Binary64.earlyExit 1 1 = Binary64.ofLength 2.
Proof. by vm_compute. Qed.

(** For long strings the sum rounds to [bLength]: with [aLength = 2^27] and
    [bLength = 2^26] the engine returns [bLength] itself, so the score of a
    substring match is not always strictly above [bLength]. *)
Lemma earlyExit_rounds_to_bLength :
  Binary64.earlyExit (2 ^ 27) (2 ^ 26) = Binary64.ofLength (2 ^ 26).
Proof. by vm_compute. Qed.

(** Two labels of nearly the same length can get the same score: the
    preference for the shorter one is not strict. *)
Lemma earlyExit_tie :
  Binary64.earlyExit 185772 131072 = Binary64.earlyExit 185773 131072.
Proof. by vm_compute. Qed.

Lemma filterOptions_threshold_witness :
  lit "Foo" ≠ []
  ∧ cleanUpText Examples.noRegExp Examples.noReplace (Some (lit "Foo")) None
    = Some (lit "FOO")
  ∧ ∃ result,
      filterOptions Examples.noRegExp Examples.noReplace
        [Examples.foo; Examples.nullLabel; Examples.food] (Some (lit "Foo")) None
        = Some result
      ∧ (∀ o, o ∈ [Examples.foo; Examples.nullLabel; Examples.food] →
           label o ≠ None → value o ≠ None →
           ∃ cleanLabel s,
             cleanUpText Examples.noRegExp Examples.noReplace (label o) None
               = Some cleanLabel
             ∧ typeaheadSimilarity cleanLabel (lit "FOO") = Some s
             ∧ (o ∈ result
                ↔ (inject_Z (Z.of_nat (length (lit "FOO")) - 2) <= s)%Q))
      ∧ (lit "FOO" = [] →
           ∀ o, o ∈ [Examples.foo; Examples.nullLabel; Examples.food] →
             label o ≠ None → value o ≠ None → o ∈ result).
Proof.
  assert (lit "Foo" ≠ []) as H1 by discriminate.
  assert (cleanUpText Examples.noRegExp Examples.noReplace (Some (lit "Foo")) None
          = Some (lit "FOO")) as H2 by (vm_compute; reflexivity).
  split; [exact H1|]. split; [exact H2|].
  exact (filterOptions_threshold Examples.noRegExp Examples.noReplace
           [Examples.foo; Examples.nullLabel; Examples.food]
           (lit "Foo") None (lit "FOO") H1 H2).
Defined.

Lemma filterOptions_drops_null_witness :
  lit "Foo" ≠ []
  ∧ filterOptions Examples.noRegExp Examples.noReplace
      [Examples.foo; Examples.nullLabel; Examples.food] (Some (lit "Foo")) None
    = Some [Examples.foo; Examples.food]
  ∧ ∀ o, o ∈ [Examples.foo; Examples.food] →
      o ∈ [Examples.foo; Examples.nullLabel; Examples.food]
      ∧ label o ≠ None ∧ value o ≠ None.
Proof.
  assert (lit "Foo" ≠ []) as H1 by discriminate.
  assert (filterOptions Examples.noRegExp Examples.noReplace
            [Examples.foo; Examples.nullLabel; Examples.food] (Some (lit "Foo")) None
          = Some [Examples.foo; Examples.food]) as H2 by (vm_compute; reflexivity).
  split; [exact H1|]. split; [exact H2|].
  exact (filterOptions_drops_null Examples.noRegExp Examples.noReplace
           [Examples.foo; Examples.nullLabel; Examples.food]
           (lit "Foo") None [Examples.foo; Examples.food] H1 H2).
Defined.

(** The claim C6 as stated fails for the empty filter: the option with a
    null label is returned. *)
Lemma filterOptions_blank_filter_keeps_null :
  ∃ result,
    filterOptions Examples.noRegExp Examples.noReplace
      [Examples.foo; Examples.nullLabel] (Some []) None = Some result
    ∧ Examples.nullLabel ∈ result
    ∧ label Examples.nullLabel = None.
Proof.
  exists [Examples.foo; Examples.nullLabel].
  split; [reflexivity|]. split; [|reflexivity].
  apply list_elem_of_In. right. by left.
Qed.


(** The division sign survives [cleanUpText]; the letters around it in the
    spared range do not. *)
Example cleanUpText_division_sign :
  cleanUpText Examples.noRegExp Examples.noReplace (Some [0xF6; 0xF7; 0xF8]) None
    = Some [0xF7].
Proof. by vm_compute. Qed.

(** * Further properties of the four functions *)

(** ** [fullStringDistance] is a metric *)

Lemma edit_sym s t : Spec.edit s t → Spec.edit t s.
Proof. intros [p c q|p c q|p c d q]; constructor. Qed.

Lemma edits_snoc n s t u : Spec.edits n s t → Spec.edit t u → Spec.edits (S n) s u.
Proof.
  intros Hst Htu. replace (S n) with (n + 1)%nat by lia.
  eapply edits_trans; [done|]. eapply Spec.edits_S; [done|constructor].
Qed.

Lemma edits_sym n s t : Spec.edits n s t → Spec.edits n t s.
Proof.
  induction 1 as [s|n s t u Hst _ IH]; [constructor|].
  eapply edits_snoc; [done|by apply edit_sym].
Qed.

Lemma edit_length s t :
  Spec.edit s t → (length t ≤ S (length s))%nat ∧ (length s ≤ S (length t))%nat.
Proof.
  intros [p c q|p c q|p c d q]; rewrite !length_app; simpl; lia.
Qed.

Lemma edits_length n s t :
  Spec.edits n s t →
  (length t ≤ length s + n)%nat ∧ (length s ≤ length t + n)%nat.
Proof.
  induction 1 as [s|n s t u Hst _ IH]; [lia|].
  apply edit_length in Hst. lia.
Qed.

Lemma edits_0 s t : Spec.edits 0 s t → s = t.
Proof. by inversion 1. Qed.

Lemma lev_sym a b : lev a b = lev b a.
Proof.
  apply Nat.le_antisymm; apply lev_lower_bound, edits_sym, lev_achieved.
Qed.

Lemma lev_triangle a b c : (lev a c ≤ lev a b + lev b c)%nat.
Proof.
  apply lev_lower_bound. eapply edits_trans; apply lev_achieved.
Qed.

Lemma lev_max a : ∀ b, (lev a b ≤ length a `max` length b)%nat.
Proof.
  induction a as [|x a IH]; intros b; [rewrite lev_nil_l; lia|].
  destruct b as [|y b]; [rewrite lev_nil_r; lia|].
  pose proof (lev_replace x y a b). specialize (IH b). cbn [length]. lia.
Qed.

(** X1.  The distance does not depend on the order of the two strings. *)
Theorem fullStringDistance_sym (a b : str) :
  fullStringDistance a b = fullStringDistance b a.
Proof. rewrite !fullStringDistance_lev. f_equal. apply lev_sym. Qed.

(** X2.  The distance is 0 exactly for equal strings. *)
Theorem fullStringDistance_zero (a b : str) :
  fullStringDistance a b = Some 0%nat ↔ a = b.
Proof.
  rewrite fullStringDistance_lev. split.
  - intros [= H0].
    pose proof (lev_achieved (reverse a) (reverse b)) as Hed.
    rewrite H0 in Hed. apply edits_0 in Hed.
    by apply (inj reverse).
  - intros ->. by rewrite lev_refl.
Qed.

(** X3.  The distance satisfies the triangle inequality. *)
Theorem fullStringDistance_triangle (a b c : str) :
  ∃ ab bc ac,
    fullStringDistance a b = Some ab
    ∧ fullStringDistance b c = Some bc
    ∧ fullStringDistance a c = Some ac
    ∧ (ac ≤ ab + bc)%nat.
Proof.
  rewrite !fullStringDistance_lev. do 3 eexists.
  repeat split; apply lev_triangle.
Qed.

(** X4.  The distance is at least the difference of the two lengths and at
    most the greater of them. *)
Theorem fullStringDistance_bounds (a b : str) :
  ∃ d, fullStringDistance a b = Some d
    ∧ (length a - length b ≤ d)%nat
    ∧ (length b - length a ≤ d)%nat
    ∧ (d ≤ length a `max` length b)%nat.
Proof.
  rewrite fullStringDistance_lev. eexists. split; [done|].
  pose proof (edits_length _ _ _ (lev_achieved (reverse a) (reverse b))) as Hlen.
  pose proof (lev_max (reverse a) (reverse b)) as Hmax.
  rewrite !length_reverse in *. lia.
Qed.

(** ** Longest common subsequences *)

Section LCS.
Context `{EqDecision A}.
Implicit Types a b c : list A.

Lemma lcs_nil_r a : lcs a [] = 0%nat.
Proof. by destruct a. Qed.

Lemma lcs_cons x a y b :
  lcs (x :: a) (y :: b) =
    if bool_decide (x = y) then S (lcs a b)
    else (lcs (x :: a) b `max` lcs a (y :: b))%nat.
Proof. done. Qed.

Lemma lcs_achieved a : ∀ b,
  ∃ c, c `sublist_of` a ∧ c `sublist_of` b ∧ length c = lcs a b.
Proof.
  induction a as [|x a IHa]; intros b.
  { exists []. split; [constructor|]. split; [apply sublist_nil_l|done]. }
  induction b as [|y b IHb].
  { exists []. split; [apply sublist_nil_l|]. split; [constructor|done]. }
  rewrite lcs_cons. case_bool_decide as Hxy.
  - subst y. destruct (IHa b) as (c & Ha & Hb & Hlen).
    exists (x :: c). split; [by constructor|]. split; [by constructor|].
    simpl. by rewrite Hlen.
  - destruct (Nat.max_dec (lcs (x :: a) b) (lcs a (y :: b))) as [-> | ->].
    + destruct IHb as (c & Ha & Hb & Hlen).
      exists c. split; [done|]. split; [by constructor|done].
    + destruct (IHa (y :: b)) as (c & Ha & Hb & Hlen).
      exists c. split; [by constructor|done].
Qed.

Lemma sublist_cons_tail x c y a :
  x :: c `sublist_of` y :: a → c `sublist_of` a.
Proof.
  intros [H|(c' & [= _ <-] & H)]%sublist_cons_r; [|done].
  apply sublist_cons_l in H as (k1 & k2 & -> & H).
  by apply sublist_inserts_l, sublist_cons.
Qed.

Lemma lcs_upper a : ∀ b c,
  c `sublist_of` a → c `sublist_of` b → (length c ≤ lcs a b)%nat.
Proof.
  induction a as [|x a IHa]; intros b c Ha Hb.
  { apply sublist_nil_r in Ha as ->. simpl. lia. }
  induction b as [|y b IHb].
  { apply sublist_nil_r in Hb as ->. simpl. lia. }
  destruct c as [|z c]; [simpl; lia|].
  rewrite lcs_cons. case_bool_decide as Hxy.
  - pose proof (IHa b c (sublist_cons_tail _ _ _ _ Ha)
                  (sublist_cons_tail _ _ _ _ Hb)).
    simpl. lia.
  - apply sublist_cons_r in Ha as Ha'.
    destruct Ha' as [Ha'|(c' & [= -> <-] & Ha')].
    + pose proof (IHa (y :: b) (z :: c) Ha' Hb). lia.
    + apply sublist_cons_r in Hb as Hb'.
      destruct Hb' as [Hb'|(c'' & [= -> <-] & Hb')]; [|done].
      pose proof (IHb Hb'). lia.
Qed.

Lemma lcs_LCSLength a b : LCSLength a b (lcs a b).
Proof. split; [apply lcs_achieved|apply lcs_upper]. Qed.

Lemma sublist_reverse a b : a `sublist_of` b → reverse a `sublist_of` reverse b.
Proof.
  induction 1 as [|x a b _ IH|x a b _ IH]; [constructor|..];
    rewrite ?reverse_cons.
  - by apply sublist_app.
  - by apply sublist_inserts_r.
Qed.

Lemma LCSLength_reverse a b n :
  LCSLength (reverse a) (reverse b) n → LCSLength a b n.
Proof.
  intros [(c & Ha & Hb & Hlen) Hmax]. split.
  - exists (reverse c). rewrite length_reverse.
    apply sublist_reverse in Ha, Hb. rewrite reverse_involutive in Ha, Hb.
    done.
  - intros c' Ha' Hb'. rewrite <- (length_reverse c').
    by apply Hmax; apply sublist_reverse.
Qed.

Lemma LCSLength_le_r a b n : LCSLength a b n → (n ≤ length b)%nat.
Proof. intros [(c & _ & Hb & <-) _]. by apply sublist_length. Qed.

Lemma reverse_take_snoc (l : list A) i x :
  l !! i = Some x → reverse (take (S i) l) = x :: reverse (take i l).
Proof. intros Hx. by rewrite (take_S_r _ _ _ Hx), reverse_snoc. Qed.
End LCS.

Lemma sublist_fmap_inv {A B} (f : A → B) (l : list A) : ∀ c,
  c `sublist_of` f <$> l → ∃ c0, c = f <$> c0 ∧ c0 `sublist_of` l.
Proof.
  induction l as [|x l IH]; intros c Hc; simpl in Hc.
  - apply sublist_nil_r in Hc as ->. by exists [].
  - apply sublist_cons_r in Hc as [Hc|(c' & -> & Hc)].
    + destruct (IH c Hc) as (c0 & -> & H0). exists c0. split; [done|].
      by constructor.
    + destruct (IH c' Hc) as (c0 & -> & H0). exists (x :: c0).
      split; [done|]. by constructor.
Qed.

(** Padding one string with [undefined] cells does not change the common
    subsequences with a string that has none. *)
Lemma LCSLength_padded (p q : str) k n :
  LCSLength (Some <$> p) ((Some <$> q) ++ replicate k None) n →
  LCSLength p q n.
Proof.
  intros [(c & Hp & Hq & Hlen) Hmax]. split.
  - apply sublist_fmap_inv in Hp as (c0 & -> & Hp).
    exists c0. split; [done|]. rewrite length_fmap in Hlen. split; [|done].
    apply sublist_app_r in Hq as (c1 & c2 & Hc & Hq1 & Hq2).
    assert (c2 = []) as ->.
    { destruct c2 as [|z c2]; [done|].
      assert (z ∈ replicate k (@None Z)) as Hz
        by (eapply elem_of_sublist; [|done]; left).
      apply elem_of_replicate in Hz as [-> _].
      assert (None ∈ Some <$> c0) as Hin
        by (rewrite Hc; apply elem_of_app; right; left).
      apply list_elem_of_fmap in Hin as (? & ? & _). done. }
    rewrite app_nil_r in Hc. subst c1.
    apply sublist_fmap_inv in Hq1 as (c0' & Heq & Hq1).
    by apply (inj (fmap Some)) in Heq as ->.
  - intros d Hdp Hdq. rewrite <- (length_fmap Some d). apply Hmax.
    + by apply fmap_sublist.
    + by apply sublist_inserts_r, fmap_sublist.
Qed.

(** The cells of [typeaheadSimilarity]'s table, in terms of the characters
    the loops read: [oa] and [ob] list the results of indexing [a] and [b]
    at [0 .. X-1] and [0 .. Y-1]. *)
Lemma lcsCell_lcs (a b : str) (oa ob : list (option Z)) X Y :
  (∀ i, (i < X)%nat → oa !! i = Some (charAt a i)) →
  (∀ j, (j < Y)%nat → ob !! j = Some (charAt b j)) →
  ∀ x y, (x ≤ X)%nat → (y ≤ Y)%nat →
    lcsCell a b x y = lcs (reverse (take x oa)) (reverse (take y ob)).
Proof.
  intros Hoa Hob x. induction x as [|x IHx]; intros y Hx Hy; [done|].
  induction y as [|y IHy].
  { rewrite lcsCell_column. symmetry.
    apply (lcs_nil_r (reverse (take (S x) oa))). }
  rewrite lcsCell_S.
  rewrite (reverse_take_snoc oa x _ (Hoa x ltac:(lia))).
  rewrite (reverse_take_snoc ob y _ (Hob y ltac:(lia))).
  rewrite lcs_cons. unfold strictEq.
  rewrite (IHx y), (IHx (S y)), IHy by lia.
  rewrite (reverse_take_snoc oa x _ (Hoa x ltac:(lia))).
  rewrite (reverse_take_snoc ob y _ (Hob y ltac:(lia))).
  by repeat case_bool_decide.
Qed.

Lemma lcsCell_le a b x : ∀ y,
  (lcsCell a b x y ≤ x)%nat ∧ (lcsCell a b x y ≤ y)%nat.
Proof.
  induction x as [|x IHx]; intros y; [simpl; lia|].
  induction y as [|y IHy]; [rewrite lcsCell_column; lia|].
  rewrite lcsCell_S. pose proof (IHx y). pose proof (IHx (S y)).
  destruct (strictEq _ _); lia.
Qed.

(** Without a swap the table holds the longest common subsequence of the
    two strings. *)
Lemma lcsCell_LCSLength (a b : str) :
  LCSLength a b (lcsCell a b (length a) (length b)).
Proof.
  rewrite (lcsCell_lcs a b (Some <$> a) (Some <$> b) (length a) (length b));
    try done.
  - rewrite !firstn_all2 by (by rewrite length_fmap).
    apply (LCSLength_padded a b 0). rewrite app_nil_r.
    apply LCSLength_reverse, lcs_LCSLength.
  - intros i Hi. rewrite list_lookup_fmap. unfold charAt.
    by destruct (lookup_lt_is_Some_2 a i Hi) as [c ->].
  - intros j Hj. rewrite list_lookup_fmap. unfold charAt.
    by destruct (lookup_lt_is_Some_2 b j Hj) as [c ->].
Qed.

(** With the loop bounds exchanged (the first string is read up to the
    length of the second and conversely), the table holds the longest
    common subsequence of the second string and the first [length b]
    characters of the first one. *)
Lemma lcsCell_swapped_LCSLength (a b : str) :
  (length b < length a)%nat →
  LCSLength (take (length b) a) b (lcsCell a b (length b) (length a)).
Proof.
  intros Hlen.
  rewrite (lcsCell_lcs a b (Some <$> a)
             ((Some <$> b) ++ replicate (length a - length b) None)
             (length b) (length a)); try done.
  - rewrite <- fmap_take.
    rewrite (firstn_all2 (_ ++ _))
      by (rewrite length_app, length_fmap, length_replicate; lia).
    apply (LCSLength_padded _ b (length a - length b)).
    apply LCSLength_reverse, lcs_LCSLength.
  - intros i Hi. rewrite list_lookup_fmap. unfold charAt.
    by destruct (lookup_lt_is_Some_2 a i ltac:(lia)) as [c ->].
  - intros j Hj. unfold charAt.
    destruct (decide (j < length b)%nat) as [Hjb|Hjb].
    + rewrite lookup_app_l by (by rewrite length_fmap).
      rewrite list_lookup_fmap.
      by destruct (lookup_lt_is_Some_2 b j Hjb) as [c ->].
    + rewrite lookup_app_r by (rewrite length_fmap; lia).
      rewrite lookup_replicate_2 by (rewrite length_fmap; lia).
      by rewrite (lookup_ge_None_2 b j) by lia.
Qed.

(** ** Scores *)

Lemma Number_le n m : (n ≤ m)%nat → (Number n <= Number m)%Q.
Proof. intros Hnm. unfold Number. rewrite <- Zle_Qle. lia. Qed.

Lemma Number_nonneg n : (0 <= Number n)%Q.
Proof. apply (Number_le 0 n). lia. Qed.

Lemma reciprocal_le (x y : Q) : (1 <= x)%Q → (x <= y)%Q → (1 / y <= 1 / x)%Q.
Proof.
  intros Hx Hxy. apply Qle_shift_div_r; [lra|].
  assert (1 / x * y == y / x)%Q as -> by (unfold Qdiv; ring).
  apply Qle_shift_div_l; lra.
Qed.

Lemma contains_length a b : Spec.contains a b → (length b ≤ length a)%nat.
Proof. intros (p & q & ->). rewrite !length_app. lia. Qed.

Lemma contains_refl a : Spec.contains a a.
Proof. exists [], []. simpl. by rewrite app_nil_r. Qed.

(** The early exit, whichever string is longer: the bonus is computed from
    the lengths of the arguments as passed. *)
Lemma typeaheadSimilarity_bonus a b :
  a ≠ [] → b ≠ [] → Spec.contains a b ∨ Spec.contains b a →
  typeaheadSimilarity a b
    = Some (Number (length b) + 1 / Number (length a))%Q.
Proof.
  intros Ha Hb Hsub. rewrite typeaheadSimilarity_nonempty by done.
  case_bool_decide as Hlen.
  - destruct Hsub as [Hsub|Hsub].
    { apply contains_length in Hsub. lia. }
    apply indexOf_contains, Z.eqb_neq in Hsub. by rewrite Hsub.
  - assert (Spec.contains a b) as Hab.
    { destruct Hsub as [Hsub|Hsub]; [done|].
      pose proof (contains_length _ _ Hsub).
      assert (b = a) as -> by (apply contains_same_length; [lia|done]).
      apply contains_refl. }
    apply indexOf_contains, Z.eqb_neq in Hab. by rewrite Hab.
Qed.

(** The table exit without a swap. *)
Lemma typeaheadSimilarity_table a b :
  b ≠ [] → (length b ≤ length a)%nat → ¬ Spec.contains a b →
  typeaheadSimilarity a b
    = Some (Number (lcsCell a b (length a) (length b))).
Proof.
  intros Hb Hlen Hsub.
  assert (a ≠ []) as Ha by (intros ->; destruct b; simpl in Hlen; [done|lia]).
  rewrite typeaheadSimilarity_nonempty by done.
  rewrite bool_decide_eq_false_2 by lia.
  destruct (decide (indexOf a b = -1)) as [->|Hidx]; [done|].
  by apply indexOf_contains in Hidx.
Qed.

(** The table exit after a swap. *)
Lemma typeaheadSimilarity_table_swapped a b :
  a ≠ [] → (length a < length b)%nat → ¬ Spec.contains b a →
  typeaheadSimilarity a b
    = Some (Number (lcsCell b a (length a) (length b))).
Proof.
  intros Ha Hlen Hsub.
  assert (b ≠ []) as Hb by (intros ->; simpl in Hlen; lia).
  rewrite typeaheadSimilarity_nonempty by done.
  rewrite bool_decide_eq_true_2 by lia.
  destruct (decide (indexOf b a = -1)) as [->|Hidx]; [done|].
  by apply indexOf_contains in Hidx.
Qed.

Lemma typeaheadSimilarity_bounds a b s :
  typeaheadSimilarity a b = Some s →
  (0 <= s)%Q ∧ (s <= Number (length b) + 1)%Q.
Proof.
  pose proof (Number_nonneg (length b)) as Hb0.
  destruct (decide (a = [] ∨ b = [])) as [Hab|Hab].
  { rewrite typeaheadSimilarity_empty by done. intros [= <-]. lra. }
  assert (a ≠ [] ∧ b ≠ []) as [Ha Hb] by tauto.
  rewrite typeaheadSimilarity_nonempty by done.
  destruct (reciprocal_bounds (Number (length a))) as [Hpos Hle1].
  { apply Number_pos. destruct a; [done|simpl; lia]. }
  set (bonus := (1 / Number (length a))%Q) in *.
  destruct (bool_decide (length a < length b)%nat);
    (destruct (negb (indexOf _ _ =? -1)); intros [= <-]; [lra|]).
  - pose proof (Number_nonneg (lcsCell b a (length a) (length b))).
    pose proof (Number_le _ _ (proj2 (lcsCell_le b a (length a) (length b)))).
    lra.
  - pose proof (Number_nonneg (lcsCell a b (length a) (length b))).
    pose proof (Number_le _ _ (proj2 (lcsCell_le a b (length a) (length b)))).
    lra.
Qed.

(** X5.  [typeaheadSimilarity] always returns a number, and that number
    lies between 0 and the length of its second argument plus 1. *)
Theorem typeaheadSimilarity_range (a b : str) :
  ∃ s, typeaheadSimilarity a b = Some s
    ∧ (0 <= s)%Q ∧ (s <= Number (length b) + 1)%Q.
Proof.
  destruct (typeaheadSimilarity_total a b) as [s Hs].
  exists s. split; [done|]. by apply (typeaheadSimilarity_bounds a b).
Qed.

(** X6.  When the first string is not shorter than the second and does
    not contain it, the score is the length of a longest common
    subsequence of the two strings. *)
Theorem typeaheadSimilarity_LCS (a b : str) :
  b ≠ [] → (length b ≤ length a)%nat → ¬ Spec.contains a b →
  ∃ n, typeaheadSimilarity a b = Some (Number n) ∧ LCSLength a b n.
Proof.
  intros Hb Hlen Hsub. eexists. split.
  - by apply typeaheadSimilarity_table.
  - apply lcsCell_LCSLength.
Qed.

(** X7.  When the first string is the shorter one and the second does not
    contain it, the score is the length of a longest common subsequence of
    the first string and the first [length a] characters of the second:
    the rest of the longer string is not looked at. *)
Theorem typeaheadSimilarity_swapped_LCS (a b : str) :
  a ≠ [] → (length a < length b)%nat → ¬ Spec.contains b a →
  ∃ n, typeaheadSimilarity a b = Some (Number n)
    ∧ LCSLength (take (length a) b) a n.
Proof.
  intros Ha Hlen Hsub. eexists. split.
  - by apply typeaheadSimilarity_table_swapped.
  - by apply lcsCell_swapped_LCSLength.
Qed.


(** X9.  Against a non-empty string [b], no string of at least the length
    of [b] scores higher than [b] itself. *)
Theorem typeaheadSimilarity_exact_match_highest (a b : str) :
  b ≠ [] → (length b ≤ length a)%nat →
  ∃ s e, typeaheadSimilarity a b = Some s
    ∧ typeaheadSimilarity b b = Some e
    ∧ (s <= e)%Q.
Proof.
  intros Hb Hlen.
  assert (1 ≤ length b)%nat by (destruct b; [done|simpl; lia]).
  assert (typeaheadSimilarity b b
          = Some (Number (length b) + 1 / Number (length b))%Q) as He.
  { apply typeaheadSimilarity_bonus; [done..|]. left. apply contains_refl. }
  destruct (reciprocal_bounds (Number (length b))) as [Hpos _].
  { by apply Number_pos. }
  destruct (decide (indexOf a b = -1)) as [Hidx|Hidx].
  - do 2 eexists. split; [|split; [exact He|]].
    + apply typeaheadSimilarity_table; [done..|].
      by intros ?%indexOf_contains.
    + pose proof (Number_le _ _ (proj2 (lcsCell_le a b (length a) (length b)))).
      lra.
  - apply indexOf_contains in Hidx.
    assert (a ≠ []) by (intros ->; simpl in *; lia).
    do 2 eexists. split; [|split; [exact He|]].
    + apply typeaheadSimilarity_bonus; auto.
    + pose proof (reciprocal_le (Number (length b)) (Number (length a))
                    (Number_pos (length b) ltac:(lia)) (Number_le _ _ Hlen)).
      lra.
Qed.

(** X10.  For two strings of the same length the score does not depend on
    the order of the arguments. *)
Theorem typeaheadSimilarity_equal_length_sym (a b : str) :
  length a = length b → typeaheadSimilarity a b = typeaheadSimilarity b a.
Proof. apply typeaheadSimilarity_sym_same_length. Qed.

(** ** What [filterOptions] keeps *)

Lemma filter_filter {A} (p q : A → bool) l :
  List.filter q (List.filter p l) = List.filter (λ x, p x && q x) l.
Proof.
  induction l as [|x l IH]; [done|]. simpl.
  destruct (p x); simpl; [destruct (q x)|]; by rewrite IH.
Qed.

Lemma threshold_le (n m : nat) :
  (Z.of_nat n - 2 ≤ Z.of_nat m) →
  Qle_bool (inject_Z (Z.of_nat n - 2)) (Number m) = true.
Proof. intros Hnm. apply Qle_bool_iff. unfold Number. by rewrite <- Zle_Qle. Qed.

Lemma threshold_bonus (n m : nat) :
  (1 ≤ m)%nat →
  Qle_bool (inject_Z (Z.of_nat n - 2)) (Number n + 1 / Number m) = true.
Proof.
  intros Hm. apply Qle_bool_iff.
  destruct (reciprocal_bounds (Number m) (Number_pos m Hm)) as [Hpos _].
  assert (inject_Z (Z.of_nat n - 2) <= Number n)%Q
    by (unfold Number; rewrite <- Zle_Qle; lia).
  set (bonus := (1 / Number m)%Q) in *. lra.
Qed.

Lemma threshold_gt (n m : nat) :
  (Z.of_nat m < Z.of_nat n - 2) →
  Qle_bool (inject_Z (Z.of_nat n - 2)) (Number m) = false.
Proof.
  intros Hnm. apply not_true_iff_false. rewrite Qle_bool_iff.
  unfold Number. rewrite <- Zle_Qle. lia.
Qed.

Section FilterFacts.
Context {RegExp V : Type}.
Variable RegExp_new : str → option RegExp.
Variable String_replace : str → RegExp → str → str.


Lemma filter_pairs cleanFilter substitutions (l : list (@Option V)) pairs
    (test : Q → bool) :
  Forall2 (λ o p, option_ p = o
                  ∧ scoreOf (V:=V) RegExp_new String_replace cleanFilter substitutions o = Some (score p))
    l pairs →
  option_ <$> List.filter (λ pair, test (score pair)) pairs
  = List.filter (λ o, match scoreOf (V:=V) RegExp_new String_replace cleanFilter substitutions o with
                      | Some s => test s
                      | None => false
                      end) l.
Proof.
  induction 1 as [|o p l pairs [Ho Hs] _ IH]; [done|]. cbn [List.filter].
  rewrite Hs. destruct (test (score p)); [|done].
  by rewrite fmap_cons, IH, Ho.
Qed.

Lemma filterOptions_filtered options filter substitutions cleanFilter :
  filter ≠ [] →
  cleanUpText RegExp_new String_replace (Some filter) substitutions = Some cleanFilter →
  ∃ result,
    filterOptions (V:=V) RegExp_new String_replace options (Some filter) substitutions = Some result
    ∧ result ≡ₚ List.filter (passes (V:=V) RegExp_new String_replace cleanFilter substitutions) options.
Proof.
  intros Hne Hclean.
  destruct (filterOptions_stages RegExp_new String_replace options filter
              substitutions cleanFilter Hne Hclean) as (pairs & Hpairs & Hres).
  eexists. split; [exact Hres|].
  rewrite sort_Permutation.
  rewrite (filter_pairs cleanFilter substitutions _ pairs
             (Qle_bool (inject_Z (Z.of_nat (length cleanFilter) - 2))) Hpairs).
  by rewrite filter_filter.
Qed.

Lemma filterOptions_member options filter substitutions cleanFilter :
  filter ≠ [] →
  cleanUpText RegExp_new String_replace (Some filter) substitutions = Some cleanFilter →
  ∃ result,
    filterOptions (V:=V) RegExp_new String_replace options (Some filter) substitutions = Some result
    ∧ ∀ o, o ∈ result
           ↔ o ∈ options ∧ passes (V:=V) RegExp_new String_replace cleanFilter substitutions o = true.
Proof.
  intros Hne Hclean.
  destruct (filterOptions_filtered options filter substitutions cleanFilter
              Hne Hclean) as (result & Hres & Hperm).
  exists result. split; [done|]. intros o.
  rewrite Hperm, !list_elem_of_In. apply filter_In.
Qed.

Lemma passes_score cleanFilter substitutions (o : @Option V) cleanLabel s :
  label o ≠ None → value o ≠ None →
  cleanUpText RegExp_new String_replace (label o) substitutions = Some cleanLabel →
  typeaheadSimilarity cleanLabel cleanFilter = Some s →
  passes (V:=V) RegExp_new String_replace cleanFilter substitutions o
  = Qle_bool (inject_Z (Z.of_nat (length cleanFilter) - 2)) s.
Proof.
  intros Hl Hv Hcl Hs. unfold passes, scoreOf.
  rewrite !bool_decide_eq_true_2 by done. rewrite Hcl. simpl. by rewrite Hs.
Qed.

(** X11.  For a non-empty filter, the returned list is a rearrangement of
    the options that pass the two tests, each with its multiplicity; in
    particular it is never longer than the input. *)
Theorem filterOptions_rearranges options filter substitutions cleanFilter :
  filter ≠ [] →
  cleanUpText RegExp_new String_replace (Some filter) substitutions = Some cleanFilter →
  ∃ result,
    filterOptions (V:=V) RegExp_new String_replace options (Some filter) substitutions = Some result
    ∧ result ≡ₚ List.filter (passes (V:=V) RegExp_new String_replace cleanFilter substitutions) options
    ∧ (length result ≤ length options)%nat.
Proof.
  intros Hne Hclean.
  destruct (filterOptions_filtered options filter substitutions cleanFilter
              Hne Hclean) as (result & Hres & Hperm).
  exists result. split; [done|]. split; [done|].
  rewrite Hperm. apply filter_length_le.
Qed.

(** X12.  For a non-empty filter, an option with non-null label and value
    is returned whenever its normalized label contains the normalized
    filter, or is contained in it, both being non-empty. *)
Theorem filterOptions_keeps_contained
    options filter substitutions cleanFilter o cleanLabel :
  filter ≠ [] →
  cleanUpText RegExp_new String_replace (Some filter) substitutions = Some cleanFilter →
  o ∈ options → label o ≠ None → value o ≠ None →
  cleanUpText RegExp_new String_replace (label o) substitutions = Some cleanLabel →
  cleanLabel ≠ [] → cleanFilter ≠ [] →
  Spec.contains cleanLabel cleanFilter ∨ Spec.contains cleanFilter cleanLabel →
  ∃ result,
    filterOptions (V:=V) RegExp_new String_replace options (Some filter) substitutions = Some result
    ∧ o ∈ result.
Proof.
  intros Hne Hclean Ho Hl Hv Hcl Hcl0 Hcf0 Hsub.
  destruct (filterOptions_member options filter substitutions cleanFilter
              Hne Hclean) as (result & Hres & Hmem).
  exists result. split; [done|]. apply Hmem. split; [done|].
  rewrite (passes_score _ _ _ _ _ Hl Hv Hcl
             (typeaheadSimilarity_bonus _ _ Hcl0 Hcf0 Hsub)).
  apply threshold_bonus. destruct cleanLabel; [done|simpl; lia].
Qed.

(** X13.  When the normalized filter has at most two characters, every
    option with non-null label and value is returned. *)
Theorem filterOptions_short_filter
    options filter substitutions cleanFilter o :
  filter ≠ [] →
  cleanUpText RegExp_new String_replace (Some filter) substitutions = Some cleanFilter →
  (length cleanFilter ≤ 2)%nat →
  o ∈ options → label o ≠ None → value o ≠ None →
  ∃ result,
    filterOptions (V:=V) RegExp_new String_replace options (Some filter) substitutions = Some result
    ∧ o ∈ result.
Proof.
  intros Hne Hclean Hlen Ho Hl Hv.
  destruct (filterOptions_member options filter substitutions cleanFilter
              Hne Hclean) as (result & Hres & Hmem).
  exists result. split; [done|]. apply Hmem. split; [done|].
  destruct (cleanUpText_total RegExp_new String_replace filter substitutions
              (label o) Hne) as [cleanLabel Hcl]; [by rewrite Hclean|].
  destruct (typeaheadSimilarity_total cleanLabel cleanFilter) as [s Hs].
  rewrite (passes_score _ _ _ _ _ Hl Hv Hcl Hs).
  apply Qle_bool_iff.
  destruct (typeaheadSimilarity_bounds _ _ _ Hs) as [H0 _].
  assert (inject_Z (Z.of_nat (length cleanFilter) - 2) <= 0)%Q
    by (change 0%Q with (inject_Z 0); rewrite <- Zle_Qle; lia).
  lra.
Qed.

(** X14.  For a non-empty filter, an option with non-null label and value
    is returned whenever its normalized label is not shorter than the
    normalized filter and has a common subsequence with it that misses at
    most two characters of the filter. *)
Theorem filterOptions_keeps_near_subsequence
    options filter substitutions cleanFilter o cleanLabel common :
  filter ≠ [] →
  cleanUpText RegExp_new String_replace (Some filter) substitutions = Some cleanFilter →
  o ∈ options → label o ≠ None → value o ≠ None →
  cleanUpText RegExp_new String_replace (label o) substitutions = Some cleanLabel →
  (length cleanFilter ≤ length cleanLabel)%nat →
  common `sublist_of` cleanLabel → common `sublist_of` cleanFilter →
  (length cleanFilter ≤ length common + 2)%nat →
  ∃ result,
    filterOptions (V:=V) RegExp_new String_replace options (Some filter) substitutions = Some result
    ∧ o ∈ result.
Proof.
  intros Hne Hclean Ho Hl Hv Hcl Hlen Hc1 Hc2 Hmiss.
  destruct (filterOptions_member options filter substitutions cleanFilter
              Hne Hclean) as (result & Hres & Hmem).
  exists result. split; [done|]. apply Hmem. split; [done|].
  destruct (decide (cleanFilter = [])) as [->|Hcf0].
  { rewrite (passes_score _ _ _ _ _ Hl Hv Hcl
               (typeaheadSimilarity_empty _ _ (or_intror eq_refl))).
    done. }
  assert (cleanLabel ≠ []) as Hcl0
    by (intros ->; destruct cleanFilter; simpl in *; [done|lia]).
  destruct (decide (indexOf cleanLabel cleanFilter = -1)) as [Hidx|Hidx].
  - rewrite (passes_score _ _ _ _ _ Hl Hv Hcl
               (typeaheadSimilarity_table _ _ Hcf0 Hlen
                  ltac:(by intros ?%indexOf_contains))).
    apply threshold_le.
    pose proof (proj2 (lcsCell_LCSLength cleanLabel cleanFilter) common Hc1 Hc2).
    lia.
  - apply indexOf_contains in Hidx.
    rewrite (passes_score _ _ _ _ _ Hl Hv Hcl
               (typeaheadSimilarity_bonus _ _ Hcl0 Hcf0 (or_introl Hidx))).
    apply threshold_bonus. destruct cleanLabel; [done|simpl; lia].
Qed.

(** X15.  For a non-empty filter, an option whose normalized label is more
    than two characters shorter than the normalized filter is not
    returned, unless that label is non-empty and contained in the
    filter. *)
Theorem filterOptions_drops_short_label
    options filter substitutions cleanFilter o cleanLabel result :
  filter ≠ [] →
  cleanUpText RegExp_new String_replace (Some filter) substitutions = Some cleanFilter →
  filterOptions (V:=V) RegExp_new String_replace options (Some filter) substitutions = Some result →
  cleanUpText RegExp_new String_replace (label o) substitutions = Some cleanLabel →
  (length cleanLabel + 2 < length cleanFilter)%nat →
  ¬ (cleanLabel ≠ [] ∧ Spec.contains cleanFilter cleanLabel) →
  o ∉ result.
Proof.
  intros Hne Hclean Hres Hcl Hlen Hsub Hin.
  destruct (filterOptions_member options filter substitutions cleanFilter
              Hne Hclean) as (result' & Hres' & Hmem).
  rewrite Hres in Hres'. injection Hres' as <-.
  apply Hmem in Hin as [_ Hpass]. unfold passes, scoreOf in Hpass.
  rewrite Hcl in Hpass. simpl in Hpass.
  apply andb_true_iff in Hpass as [_ Hpass].
  destruct (decide (cleanLabel = [])) as [->|Hcl0].
  - rewrite typeaheadSimilarity_empty in Hpass by auto.
    change 0%Q with (Number 0) in Hpass.
    rewrite threshold_gt in Hpass; [done|simpl in Hlen; lia].
  - rewrite typeaheadSimilarity_table_swapped in Hpass
      by (try done; try lia; tauto).
    rewrite threshold_gt in Hpass; [done|].
    pose proof (proj1 (lcsCell_le cleanFilter cleanLabel
                         (length cleanLabel) (length cleanFilter))).
    lia.
Qed.
End FilterFacts.

(** ** Patterns that the engine rejects *)

Section PatternFacts.
Context {RegExp V : Type}.
Variable RegExp_new : str → option RegExp.
Variable String_replace : str → RegExp → str → str.


Lemma reduce_is_Some (table : Substitutions) : ∀ text,
  is_Some (reduce (λ output '(substitution, replacement),
                     unsubbed ← RegExp_new substitution;
                     Some (String_replace output unsubbed replacement))
                  table text)
  ↔ Forall (λ entry, is_Some (RegExp_new entry.1)) table.
Proof.
  induction table as [|[k v] table IH]; intros text; simpl.
  - split; [by constructor|eauto].
  - rewrite Forall_cons. simpl.
    destruct (RegExp_new k) as [re|]; simpl.
    + rewrite IH. split; [eauto|tauto].
    + split; [by intros [? ?]|by intros [[? ?] _]].
Qed.

Lemma cleanUpText_is_Some input table :
  input ≠ [] →
  is_Some (cleanUpText RegExp_new String_replace (Some input) (Some table))
  ↔ Forall (λ entry, is_Some (RegExp_new entry.1)) table.
Proof.
  intros Hne. destruct input as [|u input]; [done|]. apply reduce_is_Some.
Qed.

(** X16.  With a substitution table, [cleanUpText] of a non-empty text
    returns exactly when every key of the table is a pattern; otherwise
    the call fails, even when nothing is left of the text to substitute
    in. *)
Theorem cleanUpText_rejected_pattern input table :
  input ≠ [] →
  (is_Some (cleanUpText RegExp_new String_replace (Some input) (Some table))
   ↔ Forall (λ entry, is_Some (RegExp_new entry.1)) table)
  ∧ (Exists (λ entry, RegExp_new entry.1 = None) table →
     cleanUpText RegExp_new String_replace (Some input) (Some table) = None).
Proof.
  intros Hne. split; [by apply cleanUpText_is_Some|].
  intros Hbad. apply eq_None_not_Some. rewrite cleanUpText_is_Some by done.
  intros Hall. rewrite Forall_forall in Hall.
  apply Exists_exists in Hbad as (entry & Hin & Hnone).
  specialize (Hall entry Hin). rewrite Hnone in Hall. by destruct Hall.
Qed.

(** X17.  With a non-empty filter and a substitution table, [filterOptions]
    returns exactly when every key of the table is a pattern, whatever the
    options are: with a rejected key the call fails even for an empty
    list of options. *)
Theorem filterOptions_rejected_pattern options filter table :
  filter ≠ [] →
  is_Some (filterOptions (V:=V) RegExp_new String_replace options (Some filter) (Some table))
  ↔ Forall (λ entry, is_Some (RegExp_new entry.1)) table.
Proof.
  intros Hne. rewrite <- (cleanUpText_is_Some filter table Hne). split.
  - intros [result Hres]. destruct filter as [|w filter]; [done|].
    unfold filterOptions in Hres.
    destruct (cleanUpText RegExp_new String_replace (Some (w :: filter)) (Some table)); [eauto|done].
  - intros [cleanFilter Hclean].
    destruct (filterOptions_stages RegExp_new String_replace options filter
                (Some table) cleanFilter Hne Hclean) as (pairs & _ & ->).
    eauto.
Qed.

(** X18.  Normalizing without a table and then with one gives the same as
    normalizing with the table at once, provided the first result is not
    empty. *)
Theorem cleanUpText_after_cleanUpText input substitutions c :
  cleanUpText RegExp_new String_replace (Some input) None = Some c → c ≠ [] →
  cleanUpText RegExp_new String_replace (Some c) substitutions = cleanUpText RegExp_new String_replace (Some input) substitutions.
Proof.
  intros Hc Hne. destruct input as [|u input]; [by injection Hc as <-|].
  injection Hc as Hc.
  pose proof (stripReplace_toUpperCase_clean (u :: input)) as Hclean.
  rewrite Hc in Hclean.
  destruct c as [|w c]; [done|].
  unfold cleanUpText.
  by rewrite (toUpperCase_clean _ Hclean), (stripReplace_clean _ Hclean), Hc.
Qed.
End PatternFacts.

(** ** ASCII text *)

Lemma isHighSurrogate_ascii u : 0 ≤ u < 128 → isHighSurrogate u = false.
Proof. unfold isHighSurrogate. intros Hu. split_comparisons; simpl; lia. Qed.

Lemma StringToCodePoints_ascii s :
  Forall (λ u, 0 ≤ u < 128) s → StringToCodePoints s = s.
Proof.
  induction 1 as [|u s Hu _ IH]; [done|].
  destruct s as [|v s]; [done|].
  change (StringToCodePoints (u :: v :: s))
    with (if isHighSurrogate u && isLowSurrogate v
          then (0x10000 + (u - 0xD800) * 0x400 + (v - 0xDC00)) :: StringToCodePoints s
          else u :: StringToCodePoints (v :: s)).
  rewrite (isHighSurrogate_ascii u Hu). cbn [andb]. by rewrite IH.
Qed.

Lemma toUppercase_ascii u : 0 ≤ u < 128 → toUppercase u = [asciiToUpper u].
Proof.
  intros Hu.
  pose proof (latin1_cases
    (λ u, negb (u <? 128) || bool_decide (toUppercase u = [asciiToUpper u])))
    as Hall.
  cbv beta in Hall. specialize (Hall ltac:(by vm_compute) u ltac:(lia)).
  destruct (Z.ltb_spec u 128); [|lia]. simpl in Hall.
  by apply bool_decide_eq_true_1 in Hall.
Qed.

Lemma strip_asciiToUpper u :
  0 ≤ u < 128 → negb (stripMatches (asciiToUpper u)) = isAsciiAlnum u.
Proof.
  intros Hu.
  pose proof (latin1_cases
    (λ u, negb (u <? 128)
          || Bool.eqb (negb (stripMatches (asciiToUpper u))) (isAsciiAlnum u)))
    as Hall.
  cbv beta in Hall. specialize (Hall ltac:(by vm_compute) u ltac:(lia)).
  destruct (Z.ltb_spec u 128); [|lia]. simpl in Hall.
  by apply eqb_prop.
Qed.

Lemma toUpperCase_ascii s :
  Forall (λ u, 0 ≤ u < 128) s → toUpperCase s = asciiToUpper <$> s.
Proof.
  intros Hs. unfold toUpperCase, CodePointsToString.
  rewrite StringToCodePoints_ascii by done.
  induction Hs as [|u s Hu _ IH]; [done|]. simpl.
  rewrite (toUppercase_ascii u Hu). simpl. rewrite IH.
  unfold CodePointToUnits at 1.
  destruct (Z.leb_spec (asciiToUpper u) 0xFFFF) as [|Hgt]; [done|].
  unfold asciiToUpper in Hgt. destruct (_ && _); lia.
Qed.

Lemma stripReplace_ascii s :
  Forall (λ u, 0 ≤ u < 128) s →
  stripReplace (asciiToUpper <$> s) = asciiToUpper <$> List.filter isAsciiAlnum s.
Proof.
  induction 1 as [|u s Hu _ IH]; [done|].
  unfold stripReplace in *. rewrite fmap_cons. cbn [List.filter].
  rewrite (strip_asciiToUpper u Hu), IH. by destruct (isAsciiAlnum u).
Qed.

(** X19.  On ASCII text and without a table, [cleanUpText] keeps the
    letters and digits, in their order, and makes the letters capital. *)
Theorem cleanUpText_ascii {RegExp : Type}
    (RegExp_new : str → option RegExp)
    (String_replace : str → RegExp → str → str) (input : str) :
  Forall (λ u, 0 ≤ u < 128) input →
  cleanUpText RegExp_new String_replace (Some input) None
    = Some (asciiToUpper <$> List.filter isAsciiAlnum input).
Proof.
  intros Hascii. destruct input as [|u input]; [done|].
  unfold cleanUpText.
  by rewrite (toUpperCase_ascii _ Hascii), (stripReplace_ascii _ Hascii).
Qed.

(** * Instances of the further properties *)

Lemma typeaheadSimilarity_LCS_witness :
  lit "WABERG" ≠ []
  ∧ (length (lit "WABERG") ≤ length (lit "WALLENBERG"))%nat
  ∧ ¬ Spec.contains (lit "WALLENBERG") (lit "WABERG")
  ∧ ∃ n, typeaheadSimilarity (lit "WALLENBERG") (lit "WABERG") = Some (Number n)
      ∧ LCSLength (lit "WALLENBERG") (lit "WABERG") n.
Proof.
  assert (lit "WABERG" ≠ []) as H1 by discriminate.
  assert (length (lit "WABERG") ≤ length (lit "WALLENBERG"))%nat as H2
    by (simpl; lia).
  assert (¬ Spec.contains (lit "WALLENBERG") (lit "WABERG")) as H3
    by (rewrite <- indexOf_contains; intros H; by apply H).
  split; [exact H1|]. split; [exact H2|]. split; [exact H3|].
  exact (typeaheadSimilarity_LCS (lit "WALLENBERG") (lit "WABERG") H1 H2 H3).
Defined.

Lemma typeaheadSimilarity_swapped_LCS_witness :
  lit "AB" ≠ []
  ∧ (length (lit "AB") < length (lit "XXAXB"))%nat
  ∧ ¬ Spec.contains (lit "XXAXB") (lit "AB")
  ∧ ∃ n, typeaheadSimilarity (lit "AB") (lit "XXAXB") = Some (Number n)
      ∧ LCSLength (take (length (lit "AB")) (lit "XXAXB")) (lit "AB") n.
Proof.
  assert (lit "AB" ≠ []) as H1 by discriminate.
  assert (length (lit "AB") < length (lit "XXAXB"))%nat as H2 by (simpl; lia).
  assert (¬ Spec.contains (lit "XXAXB") (lit "AB")) as H3
    by (rewrite <- indexOf_contains; intros H; by apply H).
  split; [exact H1|]. split; [exact H2|]. split; [exact H3|].
  exact (typeaheadSimilarity_swapped_LCS (lit "AB") (lit "XXAXB") H1 H2 H3).
Defined.


Lemma typeaheadSimilarity_exact_match_highest_witness :
  lit "WABERG" ≠ []
  ∧ (length (lit "WABERG") ≤ length (lit "WALLENBERG"))%nat
  ∧ ∃ s e, typeaheadSimilarity (lit "WALLENBERG") (lit "WABERG") = Some s
      ∧ typeaheadSimilarity (lit "WABERG") (lit "WABERG") = Some e
      ∧ (s <= e)%Q.
Proof.
  assert (lit "WABERG" ≠ []) as H1 by discriminate.
  assert (length (lit "WABERG") ≤ length (lit "WALLENBERG"))%nat as H2
    by (simpl; lia).
  split; [exact H1|]. split; [exact H2|].
  exact (typeaheadSimilarity_exact_match_highest
           (lit "WALLENBERG") (lit "WABERG") H1 H2).
Defined.

Lemma typeaheadSimilarity_equal_length_sym_witness :
  length (lit "ABCD") = length (lit "BDCA")
  ∧ typeaheadSimilarity (lit "ABCD") (lit "BDCA")
    = typeaheadSimilarity (lit "BDCA") (lit "ABCD").
Proof.
  assert (length (lit "ABCD") = length (lit "BDCA")) as H1 by reflexivity.
  split; [exact H1|].
  exact (typeaheadSimilarity_equal_length_sym (lit "ABCD") (lit "BDCA") H1).
Defined.

Lemma filterOptions_rearranges_witness :
  lit "Foo" ≠ []
  ∧ cleanUpText Examples.noRegExp Examples.noReplace (Some (lit "Foo")) None
    = Some (lit "FOO")
  ∧ ∃ result,
      filterOptions Examples.noRegExp Examples.noReplace
        [Examples.foo; Examples.nullLabel; Examples.food] (Some (lit "Foo")) None
        = Some result
      ∧ result ≡ₚ List.filter
                    (passes Examples.noRegExp Examples.noReplace (lit "FOO") None)
                    [Examples.foo; Examples.nullLabel; Examples.food]
      ∧ (length result
         ≤ length [Examples.foo; Examples.nullLabel; Examples.food])%nat.
Proof.
  assert (lit "Foo" ≠ []) as H1 by discriminate.
  assert (cleanUpText Examples.noRegExp Examples.noReplace (Some (lit "Foo")) None
          = Some (lit "FOO")) as H2 by (vm_compute; reflexivity).
  split; [exact H1|]. split; [exact H2|].
  exact (filterOptions_rearranges Examples.noRegExp Examples.noReplace
           [Examples.foo; Examples.nullLabel; Examples.food]
           (lit "Foo") None (lit "FOO") H1 H2).
Defined.

Lemma filterOptions_keeps_contained_witness :
  lit "Foo" ≠ []
  ∧ cleanUpText Examples.noRegExp Examples.noReplace (Some (lit "Foo")) None
    = Some (lit "FOO")
  ∧ Examples.food ∈ [Examples.foo; Examples.nullLabel; Examples.food]
  ∧ label Examples.food ≠ None ∧ value Examples.food ≠ None
  ∧ cleanUpText Examples.noRegExp Examples.noReplace (label Examples.food) None
    = Some (lit "FOOD")
  ∧ lit "FOOD" ≠ [] ∧ lit "FOO" ≠ []
  ∧ (Spec.contains (lit "FOOD") (lit "FOO")
     ∨ Spec.contains (lit "FOO") (lit "FOOD"))
  ∧ ∃ result,
      filterOptions Examples.noRegExp Examples.noReplace
        [Examples.foo; Examples.nullLabel; Examples.food] (Some (lit "Foo")) None
        = Some result
      ∧ Examples.food ∈ result.
Proof.
  assert (lit "Foo" ≠ []) as H1 by discriminate.
  assert (cleanUpText Examples.noRegExp Examples.noReplace (Some (lit "Foo")) None
          = Some (lit "FOO")) as H2 by (vm_compute; reflexivity).
  assert (Examples.food ∈ [Examples.foo; Examples.nullLabel; Examples.food])
    as H3 by (apply list_elem_of_In; simpl; tauto).
  assert (label Examples.food ≠ None) as H4 by discriminate.
  assert (value Examples.food ≠ None) as H5 by discriminate.
  assert (cleanUpText Examples.noRegExp Examples.noReplace
            (label Examples.food) None = Some (lit "FOOD")) as H6
    by (vm_compute; reflexivity).
  assert (lit "FOOD" ≠ []) as H7 by discriminate.
  assert (lit "FOO" ≠ []) as H8 by discriminate.
  assert (Spec.contains (lit "FOOD") (lit "FOO")
          ∨ Spec.contains (lit "FOO") (lit "FOOD")) as H9
    by (left; exists [], (lit "D"); reflexivity).
  repeat (split; [assumption|]).
  exact (filterOptions_keeps_contained Examples.noRegExp Examples.noReplace
           [Examples.foo; Examples.nullLabel; Examples.food]
           (lit "Foo") None (lit "FOO") Examples.food (lit "FOOD")
           H1 H2 H3 H4 H5 H6 H7 H8 H9).
Defined.

Lemma filterOptions_short_filter_witness :
  lit "Zq" ≠ []
  ∧ cleanUpText Examples.noRegExp Examples.noReplace (Some (lit "Zq")) None
    = Some (lit "ZQ")
  ∧ (length (lit "ZQ") ≤ 2)%nat
  ∧ Examples.food ∈ [Examples.foo; Examples.nullLabel; Examples.food]
  ∧ label Examples.food ≠ None ∧ value Examples.food ≠ None
  ∧ ∃ result,
      filterOptions Examples.noRegExp Examples.noReplace
        [Examples.foo; Examples.nullLabel; Examples.food] (Some (lit "Zq")) None
        = Some result
      ∧ Examples.food ∈ result.
Proof.
  assert (lit "Zq" ≠ []) as H1 by discriminate.
  assert (cleanUpText Examples.noRegExp Examples.noReplace (Some (lit "Zq")) None
          = Some (lit "ZQ")) as H2 by (vm_compute; reflexivity).
  assert (length (lit "ZQ") ≤ 2)%nat as H3 by (simpl; lia).
  assert (Examples.food ∈ [Examples.foo; Examples.nullLabel; Examples.food])
    as H4 by (apply list_elem_of_In; simpl; tauto).
  assert (label Examples.food ≠ None) as H5 by discriminate.
  assert (value Examples.food ≠ None) as H6 by discriminate.
  repeat (split; [assumption|]).
  exact (filterOptions_short_filter Examples.noRegExp Examples.noReplace
           [Examples.foo; Examples.nullLabel; Examples.food]
           (lit "Zq") None (lit "ZQ") Examples.food H1 H2 H3 H4 H5 H6).
Defined.

Lemma filterOptions_keeps_near_subsequence_witness :
  lit "Waberg High" ≠ []
  ∧ cleanUpText Examples.noRegExp Examples.noReplace
      (Some (lit "Waberg High")) None = Some (lit "WABERGHIGH")
  ∧ MoreExamples.wallenberg ∈ [MoreExamples.cafe; MoreExamples.wallenberg]
  ∧ label MoreExamples.wallenberg ≠ None
  ∧ value MoreExamples.wallenberg ≠ None
  ∧ cleanUpText Examples.noRegExp Examples.noReplace
      (label MoreExamples.wallenberg) None
    = Some (lit "RAOULWALLENBERGTRADITIONALHIGHSCHOOL")
  ∧ (length (lit "WABERGHIGH")
     ≤ length (lit "RAOULWALLENBERGTRADITIONALHIGHSCHOOL"))%nat
  ∧ lit "WABERGHIGH" `sublist_of` lit "RAOULWALLENBERGTRADITIONALHIGHSCHOOL"
  ∧ lit "WABERGHIGH" `sublist_of` lit "WABERGHIGH"
  ∧ (length (lit "WABERGHIGH") ≤ length (lit "WABERGHIGH") + 2)%nat
  ∧ ∃ result,
      filterOptions Examples.noRegExp Examples.noReplace
        [MoreExamples.cafe; MoreExamples.wallenberg]
        (Some (lit "Waberg High")) None = Some result
      ∧ MoreExamples.wallenberg ∈ result.
Proof.
  assert (lit "Waberg High" ≠ []) as H1 by discriminate.
  assert (cleanUpText Examples.noRegExp Examples.noReplace
            (Some (lit "Waberg High")) None = Some (lit "WABERGHIGH")) as H2
    by (vm_compute; reflexivity).
  assert (MoreExamples.wallenberg ∈ [MoreExamples.cafe; MoreExamples.wallenberg])
    as H3 by (apply list_elem_of_In; simpl; tauto).
  assert (label MoreExamples.wallenberg ≠ None) as H4 by discriminate.
  assert (value MoreExamples.wallenberg ≠ None) as H5 by discriminate.
  assert (cleanUpText Examples.noRegExp Examples.noReplace
            (label MoreExamples.wallenberg) None
          = Some (lit "RAOULWALLENBERGTRADITIONALHIGHSCHOOL")) as H6
    by (vm_compute; reflexivity).
  assert (length (lit "WABERGHIGH")
          ≤ length (lit "RAOULWALLENBERGTRADITIONALHIGHSCHOOL"))%nat as H7
    by (simpl; lia).
  assert (lit "WABERGHIGH"
            `sublist_of` lit "RAOULWALLENBERGTRADITIONALHIGHSCHOOL") as H8
    by (vm_compute; repeat (first [apply sublist_skip|apply sublist_cons|apply sublist_nil])).
  assert (lit "WABERGHIGH" `sublist_of` lit "WABERGHIGH") as H9 by reflexivity.
  assert (length (lit "WABERGHIGH") ≤ length (lit "WABERGHIGH") + 2)%nat as H10
    by (simpl; lia).
  repeat (split; [assumption|]).
  exact (filterOptions_keeps_near_subsequence
           Examples.noRegExp Examples.noReplace
           [MoreExamples.cafe; MoreExamples.wallenberg]
           (lit "Waberg High") None (lit "WABERGHIGH") MoreExamples.wallenberg
           (lit "RAOULWALLENBERGTRADITIONALHIGHSCHOOL") (lit "WABERGHIGH")
           H1 H2 H3 H4 H5 H6 H7 H8 H9 H10).
Defined.

Lemma filterOptions_drops_short_label_witness :
  lit "Waberg High" ≠ []
  ∧ cleanUpText Examples.noRegExp Examples.noReplace
      (Some (lit "Waberg High")) None = Some (lit "WABERGHIGH")
  ∧ filterOptions Examples.noRegExp Examples.noReplace
      [MoreExamples.cafe; MoreExamples.wallenberg]
      (Some (lit "Waberg High")) None = Some [MoreExamples.wallenberg]
  ∧ cleanUpText Examples.noRegExp Examples.noReplace
      (label MoreExamples.cafe) None = Some (lit "CAFE")
  ∧ (length (lit "CAFE") + 2 < length (lit "WABERGHIGH"))%nat
  ∧ ¬ (lit "CAFE" ≠ [] ∧ Spec.contains (lit "WABERGHIGH") (lit "CAFE"))
  ∧ MoreExamples.cafe ∉ [MoreExamples.wallenberg].
Proof.
  assert (lit "Waberg High" ≠ []) as H1 by discriminate.
  assert (cleanUpText Examples.noRegExp Examples.noReplace
            (Some (lit "Waberg High")) None = Some (lit "WABERGHIGH")) as H2
    by (vm_compute; reflexivity).
  assert (filterOptions Examples.noRegExp Examples.noReplace
            [MoreExamples.cafe; MoreExamples.wallenberg]
            (Some (lit "Waberg High")) None = Some [MoreExamples.wallenberg])
    as H3 by (vm_compute; reflexivity).
  assert (cleanUpText Examples.noRegExp Examples.noReplace
            (label MoreExamples.cafe) None = Some (lit "CAFE")) as H4
    by (vm_compute; reflexivity).
  assert (length (lit "CAFE") + 2 < length (lit "WABERGHIGH"))%nat as H5
    by (simpl; lia).
  assert (¬ (lit "CAFE" ≠ [] ∧ Spec.contains (lit "WABERGHIGH") (lit "CAFE")))
    as H6
    by (intros [_ H]; apply indexOf_contains in H; by apply H).
  repeat (split; [assumption|]).
  exact (filterOptions_drops_short_label Examples.noRegExp Examples.noReplace
           [MoreExamples.cafe; MoreExamples.wallenberg]
           (lit "Waberg High") None (lit "WABERGHIGH") MoreExamples.cafe
           (lit "CAFE") [MoreExamples.wallenberg] H1 H2 H3 H4 H5 H6).
Defined.

Lemma cleanUpText_rejected_pattern_witness :
  lit "Foo" ≠ []
  ∧ (is_Some (cleanUpText Examples.noRegExp Examples.noReplace
                (Some (lit "Foo")) (Some [(lit "(", lit "")]))
     ↔ Forall (λ entry, is_Some (Examples.noRegExp entry.1)) [(lit "(", lit "")])
  ∧ (Exists (λ entry, Examples.noRegExp entry.1 = None) [(lit "(", lit "")] →
     cleanUpText Examples.noRegExp Examples.noReplace
       (Some (lit "Foo")) (Some [(lit "(", lit "")]) = None).
Proof.
  assert (lit "Foo" ≠ []) as H1 by discriminate.
  split; [exact H1|].
  exact (cleanUpText_rejected_pattern Examples.noRegExp Examples.noReplace
           (lit "Foo") [(lit "(", lit "")] H1).
Defined.

Lemma filterOptions_rejected_pattern_witness :
  lit "Foo" ≠ []
  ∧ (is_Some (filterOptions Examples.noRegExp Examples.noReplace
                (@nil (@Option nat)) (Some (lit "Foo"))
                (Some [(lit "(", lit "")]))
     ↔ Forall (λ entry, is_Some (Examples.noRegExp entry.1)) [(lit "(", lit "")]).
Proof.
  assert (lit "Foo" ≠ []) as H1 by discriminate.
  split; [exact H1|].
  exact (filterOptions_rejected_pattern Examples.noRegExp Examples.noReplace
           (@nil (@Option nat)) (lit "Foo") [(lit "(", lit "")] H1).
Defined.

Lemma cleanUpText_after_cleanUpText_witness :
  cleanUpText Examples.noRegExp Examples.noReplace (Some Examples.school) None
    = Some (lit "SCOILBHRDEPRIMARYSCHOOL")
  ∧ lit "SCOILBHRDEPRIMARYSCHOOL" ≠ []
  ∧ cleanUpText Examples.noRegExp Examples.noReplace
      (Some (lit "SCOILBHRDEPRIMARYSCHOOL")) (Some [])
    = cleanUpText Examples.noRegExp Examples.noReplace
        (Some Examples.school) (Some []).
Proof.
  assert (cleanUpText Examples.noRegExp Examples.noReplace
            (Some Examples.school) None
          = Some (lit "SCOILBHRDEPRIMARYSCHOOL")) as H1
    by (vm_compute; reflexivity).
  assert (lit "SCOILBHRDEPRIMARYSCHOOL" ≠ []) as H2 by discriminate.
  split; [exact H1|]. split; [exact H2|].
  exact (cleanUpText_after_cleanUpText Examples.noRegExp Examples.noReplace
           Examples.school (Some []) (lit "SCOILBHRDEPRIMARYSCHOOL") H1 H2).
Defined.

Lemma cleanUpText_ascii_witness :
  Forall (λ u, 0 ≤ u < 128) (lit "St. Mary's_2 (K-8)")
  ∧ cleanUpText Examples.noRegExp Examples.noReplace
      (Some (lit "St. Mary's_2 (K-8)")) None
    = Some (asciiToUpper <$> List.filter isAsciiAlnum (lit "St. Mary's_2 (K-8)")).
Proof.
  assert (Forall (λ u, 0 ≤ u < 128) (lit "St. Mary's_2 (K-8)")) as H1
    by (vm_compute; repeat constructor; discriminate).
  split; [exact H1|].
  exact (cleanUpText_ascii Examples.noRegExp Examples.noReplace
           (lit "St. Mary's_2 (K-8)") H1).
Defined.
